(** * killerGraph: the doubling algorithms of [killergraphfuncs.py]

    A shallow embedding of [doublej], [doubleo] and [olrp] from
    [Python/killergraphfuncs.py], and the properties of their iteration
    and failure policy.

    The three routines are control flow around numpy/scipy calls.  The
    numerical library is an interface here ([LinAlg]): the theorems hold
    for every implementation of it, the float64 one of numpy included, and
    an exact rational implementation ([QDense]) is used to run the
    routines on concrete matrices. *)

From Stdlib Require Import String DecimalString.
From Stdlib Require Import ZArith QArith Qabs List Bool Lia.
From Stdlib Require Qcanon Qcabs DecimalPos DecimalZ.
Import ListNotations.

Set Implicit Arguments.

(** ** Python outcomes *)

(** The exceptions the three routines can end with. *)
Inductive exn : Type :=
| LinAlgError                         (* scipy.linalg.solve, singular matrix *)
| ValueError (msg : string)           (* raise ValueError(msg); math.sqrt;
                                         solve on an inf or NaN operand      *)
| UnboundLocalError (name : string).  (* a local read before it is assigned  *)

(** A call returns a value, raises, or is still in its loop when the fuel
    of the model is used up ([doubleo] has no iteration cap). *)
Inductive outcome (A : Type) : Type :=
| Return (a : A)
| Raise (e : exn)
| Running.

Arguments Return {A} a.
Arguments Raise {A} e.
Arguments Running {A}.

(** ['%i' % n] and ['{0}'.format(n)] for a Python int. *)
Definition str_of_int (n : Z) : string :=
  NilZero.string_of_int (Z.to_int n).

(** The message of the ValueError that [solve], called with its default
    check_finite=True, raises on an operand that holds an inf or a NaN. *)
Definition finite_msg : string :=
  "array must not contain infs or NaNs"%string.

(** ** The numerical library *)

(** What the module imports from numpy, scipy.linalg and math.  [scalar] is
    float64 (and the Python numbers compared with it), [matrix] a
    two-dimensional ndarray.  Operands have the shapes the docstrings give
    them, so the array operations are total; [solve] and [sqrt] are the two
    calls that raise.  A [solve] that does not return raises LinAlgError,
    on a singular matrix, or the ValueError of its check for infs and
    NaNs, which the iterates can reach by overflow: [solve_error] is the
    one it raises. *)
Class LinAlg : Type := {
  scalar : Type;
  matrix : Type;
  lit : Q -> scalar;                         (* a numeric literal           *)
  gtb : scalar -> scalar -> bool;            (* x > y                       *)
  sqrt : scalar -> option scalar;            (* math.sqrt, None: ValueError *)
  shape : matrix -> nat * nat;               (* M.shape                     *)
  eye : nat -> matrix;                       (* np.eye(n)                   *)
  zeros : nat -> nat -> matrix;              (* np.zeros((r, c))            *)
  dot : matrix -> matrix -> matrix;          (* M.dot(N), np.dot(M, N)      *)
  transpose : matrix -> matrix;              (* M.T                         *)
  add : matrix -> matrix -> matrix;          (* M + N                       *)
  sub : matrix -> matrix -> matrix;          (* M - N                       *)
  scale : scalar -> matrix -> matrix;        (* x * M                       *)
  absolute : matrix -> matrix;               (* np.abs(M)                   *)
  amax : matrix -> scalar;                   (* np.max(M)                   *)
  solve : matrix -> matrix -> option matrix; (* solve(M, N), None: raises  *)
  solve_error : matrix -> matrix -> exn;     (* what solve(M, N) raises     *)
  max_abs_eig : matrix -> scalar;            (* np.max(np.abs(eig(M)[0]))   *)
  (* the first test of doublej's loop, [5 > 1e-15], is true *)
  five_gt_tol : gtb (lit 5) (lit (1 # 1000000000000000)) = true;
  (* the two exceptions of solve *)
  solve_error_kind : forall m n : matrix,
    solve_error m n = LinAlgError \/ solve_error m n = ValueError finite_msg
}.

Declare Scope mat_scope.
Delimit Scope mat_scope with mat.
Infix "@" := dot (at level 40, left associativity) : mat_scope.
Infix "+" := add : mat_scope.
Infix "-" := sub : mat_scope.
Notation "M ^T" := (transpose M) (at level 1, format "M ^T") : mat_scope.

(** [x <= y] on the numbers the routines compare: the loop guard [x > y]
    is false. *)
Definition leb {K : LinAlg} (x y : scalar) : bool := negb (gtb x y).

(** The message of [doublej]'s ValueError. *)
Definition doublej_msg (max_it : Z) : string :=
  ("Exceeded maximum iterations of " ++ str_of_int max_it ++ "."
   ++ " Check your input matrices")%string.

(** The message of [olrp]'s ValueError. *)
Definition olrp_msg (max_iter : Z) : string :=
  ("No convergence: Iteration limit of " ++ str_of_int max_iter
   ++ " reached in OLRP")%string.

(** The message of math.sqrt on a negative number. *)
Definition sqrt_msg : string := "math domain error"%string.

Section Routines.

Context {K : LinAlg}.
Local Open Scope mat_scope.

(** *** Calls of [solve]

    A computation carries the list of the [solve] calls it has made, each
    with its coefficient matrix and right-hand side, next to its outcome. *)
Definition solve_call : Type := (matrix * matrix)%type.
Definition M (A : Type) : Type := (list solve_call * outcome A)%type.

Definition ret {A} (a : A) : M A := ([], Return a).
Definition raise {A} (e : exn) : M A := ([], Raise e).

Definition bind {A B} (m : M A) (f : A -> M B) : M B :=
  match m with
  | (l, Return a) => let (l', o) := f a in (l ++ l', o)
  | (l, Raise e) => (l, Raise e)
  | (l, Running) => (l, Running)
  end.

Notation "x <- c ;; k" := (bind c (fun x => k))
  (at level 61, c at next level, right associativity).

(** [solve(m, n)]: logged; LinAlgError on a singular [m], ValueError on
    an operand that is not finite. *)
Definition solve_ (m n : matrix) : M matrix :=
  ([(m, n)],
   match solve m n with
   | Some x => Return x
   | None => Raise (solve_error m n)
   end).

(** [sqrt(x)] of the math module. *)
Definition sqrt_ (x : scalar) : M scalar :=
  match sqrt x with Some y => ret y | None => raise (ValueError sqrt_msg) end.

Definition calls {A} (m : M A) : list solve_call := fst m.
Definition result {A} (m : M A) : outcome A := snd m.

(** ** doublej *)

(** The locals of [doublej]; [gamma1] is unbound until the first pass. *)
Record doublej_vars : Type := {
  alpha0 : matrix;
  gamma0 : matrix;
  diff : scalar;
  n_its : Z;
  gamma1 : option matrix
}.

Definition tol_j : scalar := lit (1 # 1000000000000000).

(** Lines 44-51: one pass of the loop body, up to [n_its += 1]. *)
Definition doublej_pass (v : doublej_vars) : doublej_vars :=
  let alpha1 := alpha0 v @ alpha0 v in
  let gamma1' := gamma0 v + (alpha0 v @ gamma0 v) @ (alpha0 v)^T in
  {| alpha0 := alpha1;
     gamma0 := gamma1';
     diff := amax (absolute (gamma1' - gamma0 v));
     n_its := n_its v + 1;
     gamma1 := Some gamma1' |}.

(** Lines 42-57: the while loop and the return. *)
Fixpoint doublej_while (fuel : nat) (max_it : Z) (v : doublej_vars)
  : outcome matrix :=
  if gtb (diff v) tol_j then
    match fuel with
    | O => Running
    | S fuel' =>
        let v' := doublej_pass v in
        if (n_its v' >? max_it)%Z
        then Raise (ValueError (doublej_msg max_it))
        else doublej_while fuel' max_it v'
    end
  else
    match gamma1 v with
    | Some g => Return g
    | None => Raise (UnboundLocalError "gamma1")
    end.

(** Lines 36-40. *)
Definition doublej_init (a1 b1 : matrix) : doublej_vars :=
  {| alpha0 := a1; gamma0 := b1; diff := lit 5; n_its := 1; gamma1 := None |}.

(** [doublej(a1, b1, max_it)].  The loop makes at most [max 1 max_it]
    passes ([doublej_total]), which is the fuel it gets. *)
Definition doublej (a1 b1 : matrix) (max_it : Z) : outcome matrix :=
  doublej_while (Z.to_nat (Z.max 1 max_it)) max_it (doublej_init a1 b1).

(** ** doubleo *)

(** The locals of [doubleo] that live across passes; [k1] and [g1] are
    unbound until the first pass. *)
Record doubleo_vars : Type := {
  a0 : matrix;
  b0 : matrix;
  g0 : matrix;
  dd : scalar;
  k1 : option matrix;
  g1 : option matrix
}.

(** Lines 124-132: one pass of the loop body; [v] is [np.eye(ss)]. *)
Definition doubleo_pass (A C R v : matrix) (st : doubleo_vars)
  : M doubleo_vars :=
  x <- solve_ (v + b0 st @ g0 st) (a0 st) ;;
  let a1 := a0 st @ x in
  y <- solve_ (v + b0 st @ g0 st) (b0 st @ (a0 st)^T) ;;
  let b1 := b0 st + a0 st @ y in
  z <- solve_ (v + b0 st @ g0 st) (a0 st) ;;
  let g1' := g0 st + ((a0 st)^T @ g0 st) @ z in
  s1 <- solve_ ((C @ g1'^T) @ C^T + R^T) C ;;
  let k1' := (A @ g1') @ s1^T in
  s0 <- solve_ ((C @ (g0 st)^T) @ C^T + R^T) C ;;
  let k0 := (A @ g0 st) @ s0^T in
  ret {| a0 := a1; b0 := b1; g0 := g1';
         dd := amax (k1' - k0);
         k1 := Some k1'; g1 := Some g1' |}.

(** Lines 123-134: the while loop and [return k1, g1]. *)
Fixpoint doubleo_while (fuel : nat) (A C R v : matrix) (tol : scalar)
  (st : doubleo_vars) : M (matrix * matrix) :=
  if gtb (dd st) tol then
    match fuel with
    | O => ([], Running)
    | S fuel' =>
        st' <- doubleo_pass A C R v st ;;
        doubleo_while fuel' A C R v tol st'
    end
  else
    match k1 st with
    | None => raise (UnboundLocalError "k1")
    | Some k =>
        match g1 st with
        | None => raise (UnboundLocalError "g1")
        | Some g => ret (k, g)
        end
    end.

(** [max(A.shape)]. *)
Definition max_shape (A : matrix) : nat :=
  Nat.max (fst (shape A)) (snd (shape A)).

(** Lines 116-121: the locals before the loop. *)
Definition doubleo_init (A C Q : matrix) (x : matrix) : doubleo_vars :=
  {| a0 := A^T; b0 := C^T @ x; g0 := Q; dd := lit 1;
     k1 := None; g1 := None |}.

(** [doubleo(A, C, Q, R, tol)]. *)
Definition doubleo (fuel : nat) (A C Q R : matrix) (tol : scalar)
  : M (matrix * matrix) :=
  x <- solve_ R C ;;
  let ss := max_shape A in
  let v := eye ss in
  doubleo_while fuel A C R v tol (doubleo_init A C Q x).

(** The default [tol=1e-15] of [doubleo]. *)
Definition doubleo_tol : scalar := lit (1 # 1000000000000000).

(** ** olrp *)

(** Lines 220-234: the for loop of the else branch with its own else
    clause; [n] passes are left of [range(max_iter)].  A pass that breaks
    goes on to lines 236-239 and returns [(f1, p1)]. *)
Fixpoint olrp_for (n : nat) (max_iter : Z) (beta : scalar)
  (A B Q R W : matrix) (tol : scalar) (p0 : matrix) : M (matrix * matrix) :=
  match n with
  | O => raise (ValueError (olrp_msg max_iter))
  | S n' =>
      f0 <- solve_ (R + scale beta ((B^T @ p0) @ B))
                   (scale beta ((B^T @ p0) @ A) + W^T) ;;
      let p1 := scale beta ((A^T @ p0) @ A) + Q
                - (scale beta ((A^T @ p0) @ B) + W) @ f0 in
      f1 <- solve_ (R + scale beta ((B^T @ p1) @ B))
                   (scale beta ((B^T @ p1) @ A) + W^T) ;;
      let dd := amax (f1 - f0) in
      if gtb dd tol then ret (f1, p1)
      else olrp_for n' max_iter beta A B Q R W tol p1
  end.

(** The threshold [1e-5] of line 204. *)
Definition eig_tol : scalar := lit (1 # 100000).

(** Line 216: [-0.1 * np.eye(m)]. *)
Definition olrp_p0 (A : matrix) : matrix :=
  scale (lit (-1 # 10)) (eye (max_shape A)).

(** Lines 201-202: [W=None] becomes the zero matrix. *)
Definition olrp_W (A B : matrix) (W : option matrix) : matrix :=
  match W with
  | None => zeros (max_shape A) (snd (shape B))
  | Some w => w
  end.

(** [olrp(beta, A, B, Q, R, W, tol, max_iter)]; [fuel] is for the call of
    [doubleo]. *)
Definition olrp (fuel : nat) (beta : scalar) (A B Q R : matrix)
  (W : option matrix) (tol : scalar) (max_iter : Z) : M (matrix * matrix) :=
  let W := olrp_W A B W in
  if gtb (max_abs_eig R) eig_tol then
    r <- sqrt_ beta ;;
    x <- solve_ R W^T ;;
    let A' := scale r (A - B @ x) in
    r' <- sqrt_ beta ;;
    let B' := scale r' B in
    x' <- solve_ R W^T ;;
    let Q' := Q - W @ x' in
    ks <- doubleo fuel A'^T B'^T Q' R doubleo_tol ;;
    x'' <- solve_ R W^T ;;
    let f := (fst ks)^T + x'' in
    let p := snd ks in
    ret (f, p)
  else
    olrp_for (Z.to_nat max_iter) max_iter beta A B Q R W tol (olrp_p0 A).

(** ** The passes of the loops *)

(** The locals of [doublej] after [j] passes of its loop. *)
Definition doublej_after (j : nat) (a1 b1 : matrix) : doublej_vars :=
  Nat.iter j doublej_pass (doublej_init a1 b1).

(** [j] passes of [doubleo]'s loop body from the locals [st]. *)
Fixpoint doubleo_passes (j : nat) (A C R v : matrix) (st : doubleo_vars)
  : M doubleo_vars :=
  match j with
  | O => ret st
  | S j' =>
      st' <- doubleo_pass A C R v st ;;
      doubleo_passes j' A C R v st'
  end.

(** The first [j] tests of [doubleo]'s loop from the locals [st] hold: the
    passes before them return and leave [dd] above [tol]. *)
Definition runs_on (A C R v : matrix) (tol : scalar) (j : nat)
  (st : doubleo_vars) : Prop :=
  forall i, (i < j)%nat ->
    exists st_i, result (doubleo_passes i A C R v st) = Return st_i /\
                 gtb (dd st_i) tol = true.

(** ** The algorithms as the specification words them *)

(** DoublingSum: [alpha' = alpha.alpha] and
    [gamma' = gamma + alpha.gamma.alpha^T]. *)
Definition doubling_step (p : matrix * matrix) : matrix * matrix :=
  (fst p @ fst p, snd p + fst p @ snd p @ (fst p)^T).

(** The pair (alpha, gamma) after [j] steps from (a1, b1). *)
Definition doubling_pair (j : nat) (a1 b1 : matrix) : matrix * matrix :=
  Nat.iter j doubling_step (a1, b1).

(** Successive estimates differ by at most 1e-15 in every entry. *)
Definition gamma_converged (gamma gamma' : matrix) : bool :=
  leb (amax (absolute (gamma' - gamma))) (lit (1 # 1000000000000000)).

(** The test of DoublingSum at step [j], between estimates [j-1] and [j]. *)
Definition converged_at (j : nat) (a1 b1 : matrix) : bool :=
  gamma_converged (snd (doubling_pair (pred j) a1 b1))
                  (snd (doubling_pair j a1 b1)).

(** RiccatiDoubler: [T.N] for [T = (I + b0.g0)^-1], by a linear solve. *)
Definition apply_T (Id b0 g0 N : matrix) : option matrix :=
  solve (Id + b0 @ g0) N.

(** RiccatiDoubler: the update of (a, b, g). *)
Definition riccati_step (Id : matrix) (abg : matrix * matrix * matrix)
  : option (matrix * matrix * matrix) :=
  let '(a0, b0, g0) := abg in
  match apply_T Id b0 g0 a0, apply_T Id b0 g0 (b0 @ a0^T) with
  | Some Ta, Some Tb =>
      Some (a0 @ Ta, b0 + a0 @ Tb, g0 + (a0^T @ g0) @ Ta)
  | _, _ => None
  end.

(** RiccatiDoubler: [j] updates of (a, b, g). *)
Fixpoint riccati_iter (j : nat) (Id : matrix)
  (abg : matrix * matrix * matrix) : option (matrix * matrix * matrix) :=
  match j with
  | O => Some abg
  | S j' =>
      match riccati_step Id abg with
      | Some abg' => riccati_iter j' Id abg'
      | None => None
      end
  end.

(** RiccatiDoubler: the candidate gain of a covariance [g]. *)
Definition kalman_gain (A C R g : matrix) : option matrix :=
  match solve (C @ g^T @ C^T + R^T) C with
  | Some X => Some (A @ g @ X^T)
  | None => None
  end.

(** The (a, b, g) of the locals. *)
Definition abg (st : doubleo_vars) : matrix * matrix * matrix :=
  (a0 st, b0 st, g0 st).

(** ** doublej on ndarray objects

    Python names hold references to arrays.  [doublej] again, on a store
    of array objects: every array operation allocates its result, an
    assignment rebinds a name.  The temporaries of an expression are not
    kept. *)
Definition ref : Type := nat.
Definition store : Type := list matrix.

Definition load (s : store) (r : ref) : matrix := nth r s (zeros 0 0).

Definition alloc (s : store) (m : matrix) : store * ref :=
  (s ++ [m], length s).

Record doublej_names : Type := {
  alpha0_ref : ref;
  gamma0_ref : ref;
  diff_val : scalar;
  n_its_val : Z;
  gamma1_ref : option ref
}.

(** Lines 44-51 on the store. *)
Definition doublej_pass_obj (s : store) (v : doublej_names)
  : store * doublej_names :=
  let (s1, alpha1) :=
    alloc s (load s (alpha0_ref v) @ load s (alpha0_ref v)) in
  let (s2, gamma1') :=
    alloc s1 (load s1 (gamma0_ref v)
              + (load s1 (alpha0_ref v) @ load s1 (gamma0_ref v))
                @ (load s1 (alpha0_ref v))^T) in
  (s2, {| alpha0_ref := alpha1;
          gamma0_ref := gamma1';
          diff_val :=
            amax (absolute (load s2 gamma1' - load s2 (gamma0_ref v)));
          n_its_val := n_its_val v + 1;
          gamma1_ref := Some gamma1' |}).

(** Lines 42-57 on the store. *)
Fixpoint doublej_while_obj (fuel : nat) (max_it : Z) (s : store)
  (v : doublej_names) : store * outcome ref :=
  if gtb (diff_val v) tol_j then
    match fuel with
    | O => (s, Running)
    | S fuel' =>
        let (s', v') := doublej_pass_obj s v in
        if (n_its_val v' >? max_it)%Z
        then (s', Raise (ValueError (doublej_msg max_it)))
        else doublej_while_obj fuel' max_it s' v'
    end
  else
    match gamma1_ref v with
    | Some g => (s, Return g)
    | None => (s, Raise (UnboundLocalError "gamma1"))
    end.

(** [doublej(a1, b1, max_it)] called in the store [s] on the arrays that
    [a1] and [b1] refer to: the store after the call and its outcome. *)
Definition doublej_obj (s : store) (a1 b1 : ref) (max_it : Z)
  : store * outcome ref :=
  doublej_while_obj (Z.to_nat (Z.max 1 max_it)) max_it s
    {| alpha0_ref := a1; gamma0_ref := b1; diff_val := lit 5;
       n_its_val := 1; gamma1_ref := None |}.

(** What the caller sees of an outcome: the array returned, or the
    exception. *)
Definition observe (s : store) (o : outcome ref) : outcome matrix :=
  match o with
  | Return r => Return (load s r)
  | Raise e => Raise e
  | Running => Running
  end.

(** The locals of [doublej] that the names of [v] stand for in [s]. *)
Definition values (s : store) (v : doublej_names) : doublej_vars :=
  {| alpha0 := load s (alpha0_ref v);
     gamma0 := load s (gamma0_ref v);
     diff := diff_val v;
     n_its := n_its_val v;
     gamma1 := option_map (load s) (gamma1_ref v) |}.

(** The references of [v] are to objects of [s]. *)
Definition bound (s : store) (v : doublej_names) : Prop :=
  (alpha0_ref v < length s)%nat /\
  (gamma0_ref v < length s)%nat /\
  match gamma1_ref v with
  | Some r => (r < length s)%nat
  | None => True
  end.

End Routines.

Notation "x <- c ;; k" := (bind c (fun x => k))
  (at level 61, c at next level, right associativity).

(** ** An exact implementation of the library

    Dense matrices of rationals as lists of rows, every entry in lowest
    terms, so that equal matrices are equal terms.  [q_solve] is
    Gauss-Jordan elimination, exact on every system; [q_max_abs_eig] reads
    the diagonal, which is the spectrum of a triangular matrix, and
    [q_sqrt] is exact on squares of rationals: the routines are run below
    on triangular [R] and [beta = 1].  Every rational is finite, so that a
    [q_solve] that fails is a singular system. *)

Definition qmatrix : Type := list (list Q).

Definition q_lit (x : Q) : Q := Qred x.

Definition q_gtb (x y : Q) : bool := negb (Qle_bool x y).

Definition q_sqrt (x : Q) : option Q :=
  let y := Qred x in
  if (Qnum y <? 0)%Z then None
  else Some (Z.sqrt (Qnum y) # Pos.sqrt (Qden y)).

Definition q_ncols (m : qmatrix) : nat :=
  match m with [] => 0 | r :: _ => length r end.

Definition q_shape (m : qmatrix) : nat * nat := (length m, q_ncols m).

Definition q_eye (n : nat) : qmatrix :=
  map (fun i => map (fun j => if Nat.eqb i j then 1 else 0) (seq 0 n))
      (seq 0 n).

Definition q_zeros (r c : nat) : qmatrix := repeat (repeat 0 c) r.

Definition q_transpose (m : qmatrix) : qmatrix :=
  map (fun j => map (fun r => nth j r 0) m) (seq 0 (q_ncols m)).

Definition q_inner (r c : list Q) : Q :=
  Qred (fold_left (fun acc xy => acc + fst xy * snd xy) (combine r c) 0).

Definition q_dot (a b : qmatrix) : qmatrix :=
  map (fun r => map (q_inner r) (q_transpose b)) a.

Definition q_zip (f : Q -> Q -> Q) (a b : qmatrix) : qmatrix :=
  map (fun rs => map (fun xy => Qred (f (fst xy) (snd xy)))
                     (combine (fst rs) (snd rs)))
      (combine a b).

Definition q_add : qmatrix -> qmatrix -> qmatrix := q_zip Qplus.
Definition q_sub : qmatrix -> qmatrix -> qmatrix := q_zip Qminus.

Definition q_scale (x : Q) (m : qmatrix) : qmatrix :=
  map (map (fun y => Qred (x * y))) m.

Definition q_absolute (m : qmatrix) : qmatrix := map (map Qabs) m.

Definition q_max2 (x y : Q) : Q := if Qle_bool x y then y else x.

Definition q_max_list (l : list Q) : Q :=
  match l with [] => 0 | x :: xs => fold_left q_max2 xs x end.

Definition q_amax (m : qmatrix) : Q := q_max_list (concat m).

(** The first row of [rows] with a non-zero entry in column [c], and the
    other rows. *)
Fixpoint q_pivot (c : nat) (rows : qmatrix) : option (list Q * qmatrix) :=
  match rows with
  | [] => None
  | r :: rs =>
      if Qeq_bool (nth c r 0) 0 then
        match q_pivot c rs with
        | None => None
        | Some (p, rest) => Some (p, r :: rest)
        end
      else Some (r, rs)
  end.

(** [r] minus the multiple of the pivot row [p] that clears column [c]. *)
Definition q_clear (c : nat) (p r : list Q) : list Q :=
  map (fun xy => Qred (fst xy - nth c r 0 * snd xy)) (combine r p).

(** Gauss-Jordan on the rows of [(m | n)], column [c] onwards; [done] are
    the rows already pivoted, in column order. *)
Fixpoint q_eliminate (k c : nat) (done todo : qmatrix) : option qmatrix :=
  match k with
  | O => Some done
  | S k' =>
      match q_pivot c todo with
      | None => None
      | Some (p, rest) =>
          let p' := map (fun x => Qred (x / nth c p 0)) p in
          q_eliminate k' (S c) (map (q_clear c p') done ++ [p'])%list
                      (map (q_clear c p') rest)
      end
  end.

Definition q_solve (m n : qmatrix) : option qmatrix :=
  match q_eliminate (length m) 0 []
          (map (fun rs => (fst rs ++ snd rs)%list) (combine m n)) with
  | None => None
  | Some rows => Some (map (skipn (length m)) rows)
  end.

Definition q_diag (m : qmatrix) : list Q :=
  map (fun i => nth i (nth i m []) 0) (seq 0 (length m)).

Definition q_max_abs_eig (m : qmatrix) : Q :=
  q_max_list (map Qabs (q_diag m)).

#[export] Instance QDense : LinAlg := {|
  scalar := Q;
  matrix := qmatrix;
  lit := q_lit;
  gtb := q_gtb;
  sqrt := q_sqrt;
  shape := q_shape;
  eye := q_eye;
  zeros := q_zeros;
  dot := q_dot;
  transpose := q_transpose;
  add := q_add;
  sub := q_sub;
  scale := q_scale;
  absolute := q_absolute;
  amax := q_amax;
  solve := q_solve;
  solve_error := fun _ _ => LinAlgError;
  max_abs_eig := q_max_abs_eig;
  five_gt_tol := eq_refl;
  solve_error_kind := fun _ _ => or_introl eq_refl
|}.
(** ** Concrete systems *)

(** The default [tol=1e-6] of [olrp]. *)
Definition q_tol : Q := 1 # 1000000.

(** A singular R whose largest eigenvalue modulus is 1. *)
Definition R_singular : qmatrix := [[1; 0]; [0; 0]].

(** The scalar system A = 0.5, C = Q = R = 1 of the Riccati doubler. *)
Definition A_half : qmatrix := [[1 # 2]].
Definition one : qmatrix := [[1]].

(** ** Reading a limit back *)

(** [int(s)] for the decimal numeral [s] of a Python int. *)
Definition int_of_str (s : string) : option Z :=
  option_map Z.of_int (NilZero.int_of_string s).

(** ** The series of [doublej]'s docstring *)

Section Series.

Context {K : LinAlg}.
Local Open Scope mat_scope.

(** The term a^i.b.(a^i)^T of the sum V: b for i = 0, and a.T.a^T for the
    term after T. *)
Fixpoint series_term (a b : matrix) (i : nat) : matrix :=
  match i with
  | O => b
  | S i' => a @ series_term a b i' @ a^T
  end.

(** The terms k, k+1, ..., k+n, added up in this order. *)
Fixpoint series_sum (a b : matrix) (k n : nat) : matrix :=
  match n with
  | O => series_term a b k
  | S n' => series_sum a b k n' + series_term a b (k + S n')
  end.

(** ** The passes of [olrp]'s loop *)

(** Lines 221-226: the (f0, p1, f1) of a pass that starts with [p0], when
    its two solves return. *)
Definition olrp_pass (beta : scalar) (A B Q R W p0 : matrix)
  : option (matrix * matrix * matrix) :=
  match solve (R + scale beta ((B^T @ p0) @ B))
              (scale beta ((B^T @ p0) @ A) + W^T) with
  | None => None
  | Some f0 =>
      let p1 := scale beta ((A^T @ p0) @ A) + Q
                - (scale beta ((A^T @ p0) @ B) + W) @ f0 in
      match solve (R + scale beta ((B^T @ p1) @ B))
                  (scale beta ((B^T @ p1) @ A) + W^T) with
      | None => None
      | Some f1 => Some (f0, p1, f1)
      end
  end.

(** Line 227: the metric of a pass. *)
Definition olrp_metric (pass : matrix * matrix * matrix) : scalar :=
  let '(f0, _, f1) := pass in amax (f1 - f0).

(** Line 228: the [p0] that pass [j] starts with, when the passes before
    it have solved. *)
Fixpoint olrp_p (j : nat) (beta : scalar) (A B Q R W p0 : matrix)
  : option matrix :=
  match j with
  | O => Some p0
  | S j' =>
      match olrp_pass beta A B Q R W p0 with
      | Some (_, p1, _) => olrp_p j' beta A B Q R W p1
      | None => None
      end
  end.

(** Pass [j] of the loop started with [p0]. *)
Definition olrp_pass_at (j : nat) (beta : scalar) (A B Q R W p0 : matrix)
  : option (matrix * matrix * matrix) :=
  match olrp_p j beta A B Q R W p0 with
  | Some p => olrp_pass beta A B Q R W p
  | None => None
  end.

(** ** Failed solves *)

(** The exceptions of [solve]. *)
Definition solver_exn (e : exn) : Prop :=
  e = LinAlgError \/ e = ValueError finite_msg.

(** A computation that ends with an exception of [solve] has made a last
    call of [solve], and that call has raised it. *)
Definition failed_last {X : Type} (m : M X) : Prop :=
  forall e : exn,
  result m = Raise e -> solver_exn e ->
  exists (l : list solve_call) (c : solve_call),
    calls m = (l ++ [c])%list /\
    solve (fst c) (snd c) = None /\ e = solve_error (fst c) (snd c).

End Series.

(** ** One-by-one systems

    The library on 1x1 matrices of rationals in lowest terms: a matrix is
    its entry, the product is the product of the field, the transpose the
    identity.  [qc_sqrt] is exact on squares of rationals. *)

Definition qc_gtb (x y : Qcanon.Qc) : bool :=
  negb (Qle_bool (Qcanon.this x) (Qcanon.this y)).

Definition qc_sqrt (x : Qcanon.Qc) : option Qcanon.Qc :=
  option_map Qcanon.Q2Qc (q_sqrt (Qcanon.this x)).

Definition qc_solve (m n : Qcanon.Qc) : option Qcanon.Qc :=
  if Qeq_bool (Qcanon.this m) 0 then None else Some (Qcanon.Qcdiv n m).

Definition QcOne : LinAlg := {|
  scalar := Qcanon.Qc;
  matrix := Qcanon.Qc;
  lit := Qcanon.Q2Qc;
  gtb := qc_gtb;
  sqrt := qc_sqrt;
  shape := fun _ => (1%nat, 1%nat);
  eye := fun _ => Qcanon.Q2Qc 1;
  zeros := fun _ _ => Qcanon.Q2Qc 0;
  dot := Qcanon.Qcmult;
  transpose := fun x => x;
  add := Qcanon.Qcplus;
  sub := Qcanon.Qcminus;
  scale := Qcanon.Qcmult;
  absolute := Qcabs.Qcabs;
  amax := fun x => x;
  solve := qc_solve;
  solve_error := fun _ _ => LinAlgError;
  max_abs_eig := Qcabs.Qcabs;
  five_gt_tol := eq_refl;
  solve_error_kind := fun _ _ => or_introl eq_refl
|}.

(** * Properties *)

(** ** doublej *)

Section DoublejProperties.

Context {K : LinAlg}.
Local Open Scope mat_scope.

Lemma n_its_iter (j : nat) (v : doublej_vars) :
  n_its (Nat.iter j doublej_pass v) = (n_its v + Z.of_nat j)%Z.
Proof.
  induction j as [|j IH].
  - simpl. lia.
  - rewrite Nat.iter_succ. cbn [doublej_pass n_its]. rewrite IH. lia.
Qed.

(** The loop is left as soon as its guard is false. *)
Lemma doublej_while_stop (fuel : nat) (max_it : Z) (v : doublej_vars) :
  gtb (diff v) tol_j = false ->
  doublej_while fuel max_it v =
  match gamma1 v with
  | Some g => Return g
  | None => Raise (UnboundLocalError "gamma1")
  end.
Proof.
  intros Hg. destruct fuel; simpl; rewrite Hg; reflexivity.
Qed.

(** A pass that takes the counter over the cap raises. *)
Lemma doublej_while_raise (fuel : nat) (max_it : Z) (v : doublej_vars) :
  gtb (diff v) tol_j = true ->
  (max_it < n_its v + 1)%Z ->
  doublej_while (S fuel) max_it v = Raise (ValueError (doublej_msg max_it)).
Proof.
  intros Hg Hn. simpl. rewrite Hg.
  replace (n_its v + 1 >? max_it)%Z with true; [reflexivity|].
  symmetry. apply Z.gtb_lt. lia.
Qed.

(** [j] passes whose guards hold and that stay within the cap. *)
Lemma doublej_while_run (j fuel : nat) (max_it : Z) :
  forall v : doublej_vars,
  (forall i, (i < j)%nat ->
             gtb (diff (Nat.iter i doublej_pass v)) tol_j = true) ->
  (n_its v + Z.of_nat j <= max_it)%Z ->
  doublej_while (j + fuel) max_it v =
  doublej_while fuel max_it (Nat.iter j doublej_pass v).
Proof.
  induction j as [|j IH]; intros v Hg Hn.
  - reflexivity.
  - cbn [Nat.add doublej_while].
    assert (H0 := Hg 0%nat ltac:(lia)). simpl in H0. rewrite H0.
    cbn zeta.
    replace (n_its (doublej_pass v) >? max_it)%Z with false.
    2:{ symmetry. rewrite Z.gtb_ltb. apply Z.ltb_ge.
        cbn [doublej_pass n_its]. lia. }
    rewrite IH.
    + rewrite <- Nat.iter_succ_r. reflexivity.
    + intros i Hi. rewrite <- Nat.iter_succ_r. apply Hg. lia.
    + cbn [doublej_pass n_its]. lia.
Qed.

(** What a returning loop has done. *)
Lemma doublej_while_inv (fuel : nat) (max_it : Z) (g : matrix) :
  forall v : doublej_vars,
  doublej_while fuel max_it v = Return g ->
  exists j : nat,
    (j <= fuel)%nat /\
    (forall i, (i < j)%nat ->
               gtb (diff (Nat.iter i doublej_pass v)) tol_j = true) /\
    gtb (diff (Nat.iter j doublej_pass v)) tol_j = false /\
    gamma1 (Nat.iter j doublej_pass v) = Some g /\
    (j = 0%nat \/ (n_its v + Z.of_nat j <= max_it)%Z).
Proof.
  induction fuel as [|fuel IH]; intros v H.
  - simpl in H. destruct (gtb (diff v) tol_j) eqn:Hg; [discriminate|].
    exists 0%nat. simpl. repeat split; try lia; auto.
    destruct (gamma1 v); [congruence|discriminate].
  - simpl in H. destruct (gtb (diff v) tol_j) eqn:Hg.
    + destruct (n_its v + 1 >? max_it)%Z eqn:Hn; [discriminate|].
      apply IH in H. destruct H as (j & Hj & Hrun & Hstop & Hg1 & Hcap).
      exists (S j). rewrite !Nat.iter_succ_r.
      repeat split; auto; try lia.
      * intros [|i] Hi; [exact Hg|].
        rewrite Nat.iter_succ_r. apply Hrun. lia.
      * right. rewrite Z.gtb_ltb in Hn. apply Z.ltb_ge in Hn.
        destruct Hcap as [->|Hcap]; [lia|].
        cbn [doublej_pass n_its] in Hcap. lia.
    + exists 0%nat. simpl. repeat split; try lia; auto.
      destruct (gamma1 v); [congruence|discriminate].
Qed.

(** With [max 1 max_it] passes of fuel the loop always ends, with a
    result or with its ValueError. *)
Lemma doublej_while_total (fuel : nat) (max_it : Z) :
  forall v : doublej_vars,
  gamma1 v <> None \/ gtb (diff v) tol_j = true ->
  (1 <= Z.of_nat fuel)%Z ->
  (max_it - n_its v + 1 <= Z.of_nat fuel)%Z ->
  (exists g, doublej_while fuel max_it v = Return g) \/
  doublej_while fuel max_it v = Raise (ValueError (doublej_msg max_it)).
Proof.
  induction fuel as [|fuel IH]; intros v Hv H1 Hf; [lia|].
  destruct (gtb (diff v) tol_j) eqn:Hg.
  - destruct (Z.ltb_spec max_it (n_its v + 1)) as [Hn|Hn].
    + right. apply doublej_while_raise; assumption.
    + cbn [doublej_while]. rewrite Hg. cbn zeta.
      replace (n_its (doublej_pass v) >? max_it)%Z with false.
      2:{ symmetry. rewrite Z.gtb_ltb. apply Z.ltb_ge.
        cbn [doublej_pass n_its]. lia. }
      apply IH.
      * left. discriminate.
      * lia.
      * cbn [doublej_pass n_its]. lia.
  - left. rewrite doublej_while_stop by assumption.
    destruct Hv as [Hv|Hv]; [|congruence].
    destruct (gamma1 v) as [g|]; [eauto|congruence].
Qed.

Lemma doublej_total (a1 b1 : matrix) (max_it : Z) :
  (exists g, doublej a1 b1 max_it = Return g) \/
  doublej a1 b1 max_it = Raise (ValueError (doublej_msg max_it)).
Proof.
  apply doublej_while_total.
  - right. apply five_gt_tol.
  - lia.
  - cbn [doublej_init n_its]. lia.
Qed.

(** The locals hold the pair of the doubling recursion. *)
Lemma doublej_after_pair (j : nat) (a1 b1 : matrix) :
  (alpha0 (doublej_after j a1 b1), gamma0 (doublej_after j a1 b1)) =
  doubling_pair j a1 b1.
Proof.
  unfold doublej_after, doubling_pair.
  induction j as [|j IH]; [reflexivity|].
  rewrite !Nat.iter_succ, <- IH. reflexivity.
Qed.

Lemma doublej_after_gamma (j : nat) (a1 b1 : matrix) :
  gamma0 (doublej_after j a1 b1) = snd (doubling_pair j a1 b1).
Proof. rewrite <- doublej_after_pair. reflexivity. Qed.

Lemma doublej_after_gamma1 (j : nat) (a1 b1 : matrix) :
  gamma1 (doublej_after (S j) a1 b1) = Some (snd (doubling_pair (S j) a1 b1)).
Proof.
  rewrite <- doublej_after_gamma. unfold doublej_after.
  rewrite Nat.iter_succ. reflexivity.
Qed.

(** The guard after pass [j+1] is the negated test between the estimates
    [j] and [j+1]. *)
Lemma doublej_after_guard (j : nat) (a1 b1 : matrix) :
  gtb (diff (doublej_after (S j) a1 b1)) tol_j =
  negb (converged_at (S j) a1 b1).
Proof.
  unfold converged_at, gamma_converged, leb. rewrite negb_involutive.
  rewrite <- !doublej_after_gamma. unfold doublej_after.
  rewrite Nat.iter_succ. reflexivity.
Qed.

(** The first index from 1 at which a test holds. *)
Lemma first_true (P : nat -> bool) (j : nat) :
  (1 <= j)%nat -> P j = true ->
  exists j0, (1 <= j0 <= j)%nat /\ P j0 = true /\
             forall i, (1 <= i < j0)%nat -> P i = false.
Proof.
  induction j as [j IH] using (well_founded_induction lt_wf).
  intros H1 HP.
  destruct (existsb P (seq 1 (j - 1))) eqn:E.
  - apply existsb_exists in E. destruct E as (i & Hi & HPi).
    apply in_seq in Hi.
    destruct (IH i) as (j0 & Hj0 & HPj0 & Hmin); try lia; auto.
    exists j0. repeat split; auto; lia.
  - exists j. repeat split; auto.
    intros i Hi. destruct (P i) eqn:HPi; [|reflexivity].
    assert (existsb P (seq 1 (j - 1)) = true); [|congruence].
    apply existsb_exists. exists i. split; [apply in_seq; lia|assumption].
Qed.

(** [doublej] returns the estimate of the first step [j] at which the test
    holds, when that step is below the cap. *)
Lemma doublej_returns_iff (a1 b1 : matrix) (max_it : Z) (g : matrix) :
  doublej a1 b1 max_it = Return g <->
  exists j : nat,
    (1 <= j)%nat /\ (Z.of_nat j < max_it)%Z /\
    converged_at j a1 b1 = true /\
    (forall i, (1 <= i < j)%nat -> converged_at i a1 b1 = false) /\
    g = snd (doubling_pair j a1 b1).
Proof.
  split.
  - intros H. apply doublej_while_inv in H.
    destruct H as (j & Hj & Hrun & Hstop & Hg1 & Hcap).
    destruct j as [|j].
    { simpl in Hstop. unfold tol_j in Hstop.
      rewrite five_gt_tol in Hstop. discriminate. }
    exists (S j). fold (doublej_after (S j) a1 b1) in Hstop, Hg1.
    rewrite doublej_after_guard in Hstop.
    rewrite doublej_after_gamma1 in Hg1.
    repeat split.
    + lia.
    + destruct Hcap as [Hcap|Hcap]; [discriminate|].
      cbn [doublej_init n_its] in Hcap. lia.
    + destruct (converged_at (S j) a1 b1); [reflexivity|discriminate].
    + intros [|i] Hi; [lia|].
      specialize (Hrun (S i) ltac:(lia)).
      fold (doublej_after (S i) a1 b1) in Hrun.
      rewrite doublej_after_guard in Hrun.
      destruct (converged_at (S i) a1 b1); [discriminate|reflexivity].
    + congruence.
  - intros (j & H1 & Hcap & Hconv & Hmin & ->).
    unfold doublej.
    replace (Z.to_nat (Z.max 1 max_it))
      with (j + (Z.to_nat (Z.max 1 max_it) - j))%nat by lia.
    rewrite doublej_while_run.
    + fold (doublej_after j a1 b1).
      destruct j as [|j]; [lia|].
      rewrite doublej_while_stop.
      * rewrite doublej_after_gamma1. reflexivity.
      * rewrite doublej_after_guard, Hconv. reflexivity.
    + intros [|i] Hi; [apply five_gt_tol|].
      fold (doublej_after (S i) a1 b1).
      rewrite doublej_after_guard, Hmin by lia. reflexivity.
    + cbn [doublej_init n_its]. lia.
Qed.

(** [doublej] raises when no step below the cap passes the test, a step
    equal to the cap included. *)
Lemma doublej_raises_iff (a1 b1 : matrix) (max_it : Z) :
  doublej a1 b1 max_it = Raise (ValueError (doublej_msg max_it)) <->
  forall j : nat,
    (1 <= j)%nat -> (Z.of_nat j < max_it)%Z -> converged_at j a1 b1 = false.
Proof.
  split.
  - intros H j H1 Hcap.
    destruct (converged_at j a1 b1) eqn:Hc; [|reflexivity].
    destruct (first_true (fun i => converged_at i a1 b1) H1 Hc)
      as (j0 & Hj0 & Hc0 & Hmin).
    assert (doublej a1 b1 max_it = Return (snd (doubling_pair j0 a1 b1))).
    { apply doublej_returns_iff. exists j0. repeat split; auto; lia. }
    congruence.
  - intros Hno. destruct (doublej_total a1 b1 max_it) as [[g Hg]|Hr]; auto.
    apply doublej_returns_iff in Hg.
    destruct Hg as (j & H1 & Hcap & Hconv & _).
    rewrite Hno in Hconv by assumption. discriminate.
Qed.

(** C8: [doublej] keeps a pair (alpha, gamma) that starts as (a1, b1) and
    that every pass replaces by (alpha.alpha, gamma + alpha.gamma.alpha^T);
    its loop test compares the largest absolute entry of the difference of
    successive gamma with the constant 1e-15, which is no argument of
    [doublej]; what it returns is the gamma of the first step that passes
    this test. *)
Theorem doublej_doubling_recursion (a1 b1 : matrix) :
  (alpha0 (doublej_init a1 b1), gamma0 (doublej_init a1 b1)) = (a1, b1) /\
  (forall v : doublej_vars,
     (alpha0 (doublej_pass v), gamma0 (doublej_pass v)) =
     (alpha0 v @ alpha0 v, gamma0 v + alpha0 v @ gamma0 v @ (alpha0 v)^T)) /\
  (forall j : nat,
     (alpha0 (doublej_after j a1 b1), gamma0 (doublej_after j a1 b1)) =
     doubling_pair j a1 b1) /\
  (forall v : doublej_vars,
     diff (doublej_pass v) =
     amax (absolute (gamma0 (doublej_pass v) - gamma0 v))) /\
  (forall j : nat,
     leb (diff (doublej_after (S j) a1 b1)) (lit (1 # 1000000000000000)) =
     gamma_converged (snd (doubling_pair j a1 b1))
                     (snd (doubling_pair (S j) a1 b1))) /\
  (forall (max_it : Z) (g : matrix),
     doublej a1 b1 max_it = Return g ->
     exists j : nat,
       (1 <= j)%nat /\
       g = snd (doubling_pair j a1 b1) /\
       converged_at j a1 b1 = true /\
       forall i, (1 <= i < j)%nat -> converged_at i a1 b1 = false).
Proof.
  split; [reflexivity|].
  split; [reflexivity|].
  split; [intros j; apply doublej_after_pair|].
  split; [reflexivity|].
  split.
  - intros j. unfold leb. fold tol_j. rewrite doublej_after_guard.
    rewrite negb_involutive. reflexivity.
  - intros max_it g H. apply doublej_returns_iff in H.
    destruct H as (j & H1 & _ & Hc & Hmin & Hg). eauto.
Qed.

End DoublejProperties.

(** ** Computations with a log *)

Section MonadProperties.

Context {K : LinAlg}.

Lemma result_bind {A B : Type} (m : M A) (f : A -> M B) :
  result (bind m f) =
  match result m with
  | Return a => result (f a)
  | Raise e => Raise e
  | Running => Running
  end.
Proof.
  destruct m as [l [a|e|]]; simpl; try reflexivity.
  destruct (f a); reflexivity.
Qed.

Lemma calls_bind {A B : Type} (m : M A) (f : A -> M B) :
  calls (bind m f) =
  (calls m ++ match result m with Return a => calls (f a) | _ => [] end)%list.
Proof.
  destruct m as [l [a|e|]]; simpl; try (rewrite app_nil_r; reflexivity).
  destruct (f a); reflexivity.
Qed.

Lemma result_bind_inv {A B : Type} (m : M A) (f : A -> M B) (b : B) :
  result (bind m f) = Return b ->
  exists a, result m = Return a /\ result (f a) = Return b.
Proof.
  rewrite result_bind. destruct (result m) as [a|e|]; try discriminate.
  eauto.
Qed.

Lemma result_solve (m n : matrix) :
  result (solve_ m n) =
  match solve m n with
  | Some x => Return x
  | None => Raise (solve_error m n)
  end.
Proof. reflexivity. Qed.

Lemma solve_error_not_unbound (m n : matrix) (name : string) :
  solve_error m n <> UnboundLocalError name.
Proof. destruct (solve_error_kind m n) as [H|H]; rewrite H; discriminate. Qed.

Lemma solve_error_not_limit (m n : matrix) (k : Z) :
  solve_error m n <> ValueError (olrp_msg k).
Proof. destruct (solve_error_kind m n) as [H|H]; rewrite H; discriminate. Qed.

Lemma solve_error_not_sqrt (m n : matrix) :
  solve_error m n <> ValueError sqrt_msg.
Proof. destruct (solve_error_kind m n) as [H|H]; rewrite H; discriminate. Qed.

Lemma calls_solve (m n : matrix) : calls (solve_ m n) = [(m, n)].
Proof. reflexivity. Qed.

Lemma result_solve_inv (m n x : matrix) :
  result (solve_ m n) = Return x -> solve m n = Some x.
Proof.
  rewrite result_solve. destruct (solve m n); congruence.
Qed.

End MonadProperties.

(** ** doubleo *)

Section DoubleoProperties.

Context {K : LinAlg}.
Local Open Scope mat_scope.

Variables A C R v : matrix.
Variable tol : scalar.

(** A pass of the loop, in the words of the specification: it returns when
    the update of (a, b, g) and the two gains can be solved. *)
Lemma doubleo_pass_Return (st st' : doubleo_vars) :
  result (doubleo_pass A C R v st) = Return st' <->
  exists k1' k0 : matrix,
    riccati_step v (abg st) = Some (abg st') /\
    kalman_gain A C R (g0 st') = Some k1' /\
    kalman_gain A C R (g0 st) = Some k0 /\
    dd st' = amax (k1' - k0) /\
    k1 st' = Some k1' /\
    g1 st' = Some (g0 st').
Proof.
  unfold doubleo_pass, riccati_step, kalman_gain, apply_T, abg.
  destruct st' as [a' b' g' d' k' g1']. cbn [a0 b0 g0 dd k1 g1].
  split.
  - intros H.
    apply result_bind_inv in H. destruct H as (x & Hx & H).
    apply result_solve_inv in Hx.
    apply result_bind_inv in H. destruct H as (y & Hy & H).
    apply result_solve_inv in Hy.
    apply result_bind_inv in H. destruct H as (z & Hz & H).
    apply result_solve_inv in Hz.
    apply result_bind_inv in H. destruct H as (s1 & Hs1 & H).
    apply result_solve_inv in Hs1.
    apply result_bind_inv in H. destruct H as (s0 & Hs0 & H).
    apply result_solve_inv in Hs0.
    cbn in H. injection H as <- <- <- <- <- <-.
    assert (z = x) by congruence. subst z.
    rewrite Hx, Hy, Hs1, Hs0. eauto 10.
  - intros (k1' & k0 & Hstep & Hk1 & Hk0 & -> & -> & ->).
    destruct (solve (v + b0 st @ g0 st) (a0 st)) as [x|] eqn:Hx;
      [|discriminate].
    destruct (solve (v + b0 st @ g0 st) (b0 st @ (a0 st)^T)) as [y|] eqn:Hy;
      [|discriminate].
    injection Hstep as <- <- <-.
    destruct (solve
                (C @ (g0 st + (a0 st)^T @ g0 st @ x)^T @ C^T + R^T) C)
      as [s1|] eqn:Hs1; [|discriminate].
    destruct (solve (C @ (g0 st)^T @ C^T + R^T) C) as [s0|] eqn:Hs0;
      [|discriminate].
    injection Hk1 as <-. injection Hk0 as <-.
    rewrite result_bind, result_solve, Hx.
    rewrite result_bind, result_solve, Hy.
    rewrite result_bind, result_solve, Hx.
    rewrite result_bind, result_solve, Hs1.
    rewrite result_bind, result_solve, Hs0.
    reflexivity.
Qed.

(** The [solve] calls of a pass that returns: three against
    [v + b0.g0], then the two of the gains. *)
Lemma doubleo_pass_calls (st st' : doubleo_vars) :
  result (doubleo_pass A C R v st) = Return st' ->
  calls (doubleo_pass A C R v st) =
  [ (v + b0 st @ g0 st, a0 st);
    (v + b0 st @ g0 st, b0 st @ (a0 st)^T);
    (v + b0 st @ g0 st, a0 st);
    (C @ (g0 st')^T @ C^T + R^T, C);
    (C @ (g0 st)^T @ C^T + R^T, C) ].
Proof.
  unfold doubleo_pass. intros H.
  apply result_bind_inv in H. destruct H as (x & Hx & H).
  apply result_bind_inv in H. destruct H as (y & Hy & H).
  apply result_bind_inv in H. destruct H as (z & Hz & H).
  apply result_bind_inv in H. destruct H as (s1 & Hs1 & H).
  apply result_bind_inv in H. destruct H as (s0 & Hs0 & H).
  cbn in H. injection H as <-. cbn [g0].
  rewrite calls_bind, Hx, calls_bind, Hy, calls_bind, Hz.
  rewrite calls_bind, Hs1, calls_bind, Hs0.
  reflexivity.
Qed.

Lemma doubleo_passes_S (j : nat) (st : doubleo_vars) :
  doubleo_passes (S j) A C R v st =
  (st' <- doubleo_pass A C R v st ;; doubleo_passes j A C R v st').
Proof. reflexivity. Qed.

Lemma doubleo_while_stop (fuel : nat) (st : doubleo_vars) :
  gtb (dd st) tol = false ->
  doubleo_while fuel A C R v tol st =
  match k1 st with
  | None => raise (UnboundLocalError "k1")
  | Some k =>
      match g1 st with
      | None => raise (UnboundLocalError "g1")
      | Some g => ret (k, g)
      end
  end.
Proof. intros Hg. destruct fuel; simpl; rewrite Hg; reflexivity. Qed.

Lemma doubleo_while_step (fuel : nat) (st : doubleo_vars) :
  gtb (dd st) tol = true ->
  doubleo_while (S fuel) A C R v tol st =
  (st' <- doubleo_pass A C R v st ;; doubleo_while fuel A C R v tol st').
Proof. intros Hg. simpl. rewrite Hg. reflexivity. Qed.

Lemma runs_on_S (j : nat) (st st1 : doubleo_vars) :
  result (doubleo_pass A C R v st) = Return st1 ->
  runs_on A C R v tol (S j) st -> runs_on A C R v tol j st1.
Proof.
  intros H1 Hr i Hi. destruct (Hr (S i)) as (st_i & Hp & Hg); [lia|].
  rewrite doubleo_passes_S, result_bind, H1 in Hp. eauto.
Qed.

Lemma runs_on_cons (j : nat) (st st1 : doubleo_vars) :
  gtb (dd st) tol = true ->
  result (doubleo_pass A C R v st) = Return st1 ->
  runs_on A C R v tol j st1 -> runs_on A C R v tol (S j) st.
Proof.
  intros H0 H1 Hr [|i] Hi.
  - exists st. split; [reflexivity|assumption].
  - destruct (Hr i) as (st_i & Hp & Hg); [lia|].
    exists st_i. rewrite doubleo_passes_S, result_bind, H1. auto.
Qed.

(** What a returning loop has done. *)
Lemma doubleo_while_Return_inv (fuel : nat) (k g : matrix) :
  forall st : doubleo_vars,
  result (doubleo_while fuel A C R v tol st) = Return (k, g) ->
  exists (j : nat) (st' : doubleo_vars),
    (j <= fuel)%nat /\
    result (doubleo_passes j A C R v st) = Return st' /\
    runs_on A C R v tol j st /\
    gtb (dd st') tol = false /\
    k1 st' = Some k /\ g1 st' = Some g.
Proof.
  induction fuel as [|fuel IH]; intros st H;
    destruct (gtb (dd st) tol) eqn:Hg.
  - simpl in H. rewrite Hg in H. discriminate.
  - rewrite doubleo_while_stop in H by assumption.
    exists 0%nat, st. repeat split; auto.
    + intros i Hi. lia.
    + destruct (k1 st); [|discriminate]. destruct (g1 st); [|discriminate].
      cbn in H. congruence.
    + destruct (k1 st); [|discriminate]. destruct (g1 st); [|discriminate].
      cbn in H. congruence.
  - rewrite doubleo_while_step in H by assumption.
    apply result_bind_inv in H. destruct H as (st1 & H1 & H).
    apply IH in H. destruct H as (j & st' & Hj & Hp & Hr & Hs & Hk & Hg1).
    exists (S j), st'. repeat split; auto; try lia.
    + rewrite doubleo_passes_S, result_bind, H1. assumption.
    + eapply runs_on_cons; eassumption.
  - rewrite doubleo_while_stop in H by assumption.
    exists 0%nat, st. repeat split; auto; try lia.
    + intros i Hi. lia.
    + destruct (k1 st); [|discriminate]. destruct (g1 st); [|discriminate].
      cbn in H. congruence.
    + destruct (k1 st); [|discriminate]. destruct (g1 st); [|discriminate].
      cbn in H. congruence.
Qed.

(** Enough fuel gives the result. *)
Lemma doubleo_while_Return_intro (j : nat) :
  forall (fuel : nat) (st st' : doubleo_vars) (k g : matrix),
  result (doubleo_passes j A C R v st) = Return st' ->
  runs_on A C R v tol j st ->
  gtb (dd st') tol = false ->
  k1 st' = Some k -> g1 st' = Some g ->
  (j <= fuel)%nat ->
  result (doubleo_while fuel A C R v tol st) = Return (k, g).
Proof.
  induction j as [|j IH]; intros fuel st st' k g Hp Hr Hs Hk Hg1 Hf.
  - cbn in Hp. injection Hp as <-.
    rewrite doubleo_while_stop, Hk, Hg1 by assumption. reflexivity.
  - destruct fuel as [|fuel]; [lia|].
    destruct (Hr 0%nat) as (st0 & H0 & Hg0); [lia|].
    cbn in H0. injection H0 as <-.
    rewrite doubleo_while_step, result_bind by assumption.
    rewrite doubleo_passes_S, result_bind in Hp.
    destruct (result (doubleo_pass A C R v st)) as [st1| |] eqn:H1;
      try discriminate.
    eapply IH; eauto.
    + eapply runs_on_S; eassumption.
    + lia.
Qed.

(** While the metric stays above [tol] the loop goes on: no number of
    passes ends it. *)
Lemma doubleo_while_Running (n : nat) :
  forall st : doubleo_vars,
  runs_on A C R v tol (S n) st ->
  result (doubleo_while n A C R v tol st) = Running.
Proof.
  induction n as [|n IH]; intros st Hr;
    destruct (Hr 0%nat) as (st0 & H0 & Hg0); try lia;
    cbn in H0; injection H0 as <-.
  - simpl. rewrite Hg0. reflexivity.
  - rewrite doubleo_while_step, result_bind by assumption.
    destruct (Hr 1%nat) as (st1 & H1 & Hg1); [lia|].
    rewrite doubleo_passes_S, result_bind in H1.
    destruct (result (doubleo_pass A C R v st)) as [st1'| |] eqn:Hp;
      try discriminate.
    apply IH. eapply runs_on_S; eassumption.
Qed.

(** After [j] passes the locals hold the [j]-th update of (a, b, g). *)
Lemma doubleo_passes_riccati (j : nat) :
  forall st st' : doubleo_vars,
  result (doubleo_passes j A C R v st) = Return st' ->
  riccati_iter j v (abg st) = Some (abg st').
Proof.
  induction j as [|j IH]; intros st st' H.
  - cbn in H. injection H as <-. reflexivity.
  - rewrite doubleo_passes_S in H.
    apply result_bind_inv in H. destruct H as (st1 & H1 & H).
    apply doubleo_pass_Return in H1. destruct H1 as (? & ? & Hstep & _).
    cbn [riccati_iter]. rewrite Hstep. apply IH. assumption.
Qed.

(** After at least one pass, [k1] and [g1] are bound to the gain and the
    covariance of the last pass. *)
Lemma doubleo_passes_last (j : nat) :
  forall st st' : doubleo_vars,
  result (doubleo_passes (S j) A C R v st) = Return st' ->
  g1 st' = Some (g0 st') /\ k1 st' = kalman_gain A C R (g0 st').
Proof.
  induction j as [|j IH]; intros st st' H;
    rewrite doubleo_passes_S in H;
    apply result_bind_inv in H; destruct H as (st1 & H1 & H).
  - cbn in H. injection H as <-.
    apply doubleo_pass_Return in H1.
    destruct H1 as (k1' & k0 & _ & Hk1 & _ & _ & Hk & Hg).
    split; congruence.
  - eapply IH; eassumption.
Qed.

End DoubleoProperties.

Section DoubleoClaims.

Context {K : LinAlg}.
Local Open Scope mat_scope.

Lemma doubleo_Return_inv (fuel : nat) (A C Q R : matrix) (tol : scalar)
  (k g : matrix) :
  result (doubleo fuel A C Q R tol) = Return (k, g) ->
  exists (x : matrix) (j : nat) (st : doubleo_vars),
    solve R C = Some x /\
    (1 <= j <= fuel)%nat /\
    result (doubleo_passes j A C R (eye (max_shape A))
              (doubleo_init A C Q x)) = Return st /\
    runs_on A C R (eye (max_shape A)) tol j (doubleo_init A C Q x) /\
    gtb (dd st) tol = false /\
    k1 st = Some k /\ g1 st = Some g.
Proof.
  unfold doubleo. intros H.
  apply result_bind_inv in H. destruct H as (x & Hx & H).
  apply result_solve_inv in Hx.
  apply doubleo_while_Return_inv in H.
  destruct H as (j & st & Hj & Hp & Hr & Hs & Hk & Hg).
  exists x, j, st. repeat split; auto.
  destruct j; [|lia].
  cbn in Hp. injection Hp as <-. discriminate.
Qed.

(** C3: [doubleo] starts from a0 = A^T, b0 = C^T.solve(R, C) and g0 = Q,
    and every pass of its loop replaces (a0, b0, g0) by
    a0.T.a0, b0 + a0.T.(b0.a0^T) and g0 + (a0^T.g0).T.a0 for
    T = (I + b0.g0)^-1, where each product with T is a call of [solve]
    with the coefficient matrix I + b0.g0: the library has no inverse. *)
Theorem doubleo_derivation_and_update (A C Q R : matrix) (tol : scalar)
  (fuel : nat) :
  doubleo fuel A C Q R tol =
    (x <- solve_ R C ;;
     doubleo_while fuel A C R (eye (max_shape A)) tol
       (doubleo_init A C Q x)) /\
  (forall x : matrix, abg (doubleo_init A C Q x) = (A^T, C^T @ x, Q)) /\
  (forall (Id a b g Ta Tb : matrix),
     solve (Id + b @ g) a = Some Ta ->
     solve (Id + b @ g) (b @ a^T) = Some Tb ->
     riccati_step Id (a, b, g) =
     Some (a @ Ta, b + a @ Tb, g + (a^T @ g) @ Ta)) /\
  (forall (v : matrix) (st st' : doubleo_vars),
     result (doubleo_pass A C R v st) = Return st' ->
     riccati_step v (abg st) = Some (abg st') /\
     exists l,
       calls (doubleo_pass A C R v st) =
       (v + b0 st @ g0 st, a0 st)
       :: (v + b0 st @ g0 st, b0 st @ (a0 st)^T)
       :: (v + b0 st @ g0 st, a0 st) :: l) /\
  (forall k g : matrix,
     result (doubleo fuel A C Q R tol) = Return (k, g) ->
     exists (x : matrix) (j : nat) (a b : matrix),
       solve R C = Some x /\
       (1 <= j <= fuel)%nat /\
       riccati_iter j (eye (max_shape A)) (A^T, C^T @ x, Q) =
       Some (a, b, g)).
Proof.
  split; [reflexivity|].
  split; [reflexivity|].
  split.
  { intros Id a b g Ta Tb Ha Hb. unfold riccati_step, apply_T.
    rewrite Ha, Hb. reflexivity. }
  split.
  - intros v st st' H. split.
    + apply doubleo_pass_Return in H. destruct H as (? & ? & H & _).
      exact H.
    + rewrite (doubleo_pass_calls _ _ _ _ _ H). eauto.
  - intros k g H. apply doubleo_Return_inv in H.
    destruct H as (x & j & st & Hx & Hj & Hp & _ & _ & _ & Hg).
    destruct j as [|j]; [lia|].
    destruct (doubleo_passes_last _ _ _ _ _ _ Hp) as [Hg1 _].
    apply doubleo_passes_riccati in Hp. unfold abg in Hp at 2.
    exists x, (S j), (a0 st), (b0 st). repeat split; auto; try lia.
    replace g with (g0 st) by congruence. exact Hp.
Qed.

(** C4: a pass of [doubleo] computes k1 = A.g1.solve(C.g1^T.C^T + R^T, C)^T
    from the updated covariance and k0 by the same formula from the
    covariance before the update, and sets dd to the largest entry of
    k1 - k0, no absolute value taken; the loop goes on while dd > tol and
    is left as soon as dd <= tol, however many passes that takes; the pair
    returned is the (k1, g1) of the last pass. *)
Theorem doubleo_gain_metric_and_return (A C Q R : matrix) (tol : scalar) :
  (forall (v : matrix) (st st' : doubleo_vars),
     result (doubleo_pass A C R v st) = Return st' ->
     exists s1 s0 : matrix,
       solve (C @ (g0 st')^T @ C^T + R^T) C = Some s1 /\
       solve (C @ (g0 st)^T @ C^T + R^T) C = Some s0 /\
       k1 st' = Some (A @ g0 st' @ s1^T) /\
       g1 st' = Some (g0 st') /\
       dd st' = amax (A @ g0 st' @ s1^T - A @ g0 st @ s0^T)) /\
  (forall (fuel : nat) (v : matrix) (st : doubleo_vars) (k g : matrix),
     k1 st = Some k -> g1 st = Some g ->
     (leb (dd st) tol = true ->
      doubleo_while fuel A C R v tol st = ret (k, g)) /\
     (leb (dd st) tol = false ->
      doubleo_while (S fuel) A C R v tol st =
      (st' <- doubleo_pass A C R v st ;;
       doubleo_while fuel A C R v tol st'))) /\
  (forall (n : nat) (v : matrix) (st : doubleo_vars),
     runs_on A C R v tol (S n) st ->
     result (doubleo_while n A C R v tol st) = Running) /\
  (forall (fuel : nat) (k g : matrix),
     result (doubleo fuel A C Q R tol) = Return (k, g) ->
     exists (x : matrix) (j : nat) (st : doubleo_vars),
       solve R C = Some x /\
       (1 <= j <= fuel)%nat /\
       result (doubleo_passes j A C R (eye (max_shape A))
                 (doubleo_init A C Q x)) = Return st /\
       runs_on A C R (eye (max_shape A)) tol j (doubleo_init A C Q x) /\
       leb (dd st) tol = true /\
       k1 st = Some k /\ g1 st = Some g /\
       g0 st = g /\ kalman_gain A C R g = Some k) /\
  (forall (fuel j : nat) (x : matrix) (st : doubleo_vars) (k g : matrix),
     solve R C = Some x ->
     result (doubleo_passes j A C R (eye (max_shape A))
               (doubleo_init A C Q x)) = Return st ->
     runs_on A C R (eye (max_shape A)) tol j (doubleo_init A C Q x) ->
     leb (dd st) tol = true ->
     k1 st = Some k -> g1 st = Some g ->
     (j <= fuel)%nat ->
     result (doubleo fuel A C Q R tol) = Return (k, g)).
Proof.
  split.
  { intros v st st' H. apply doubleo_pass_Return in H.
    destruct H as (k1' & k0 & _ & Hk1 & Hk0 & Hdd & Hk & Hg).
    unfold kalman_gain in Hk1, Hk0.
    destruct (solve (C @ (g0 st')^T @ C^T + R^T) C) as [s1|];
      [|discriminate].
    destruct (solve (C @ (g0 st)^T @ C^T + R^T) C) as [s0|];
      [|discriminate].
    exists s1, s0. repeat split; congruence. }
  split.
  { intros fuel v st k g Hk Hg. unfold leb. split; intros Hd.
    - rewrite doubleo_while_stop, Hk, Hg; [reflexivity|].
      destruct (gtb (dd st) tol); [discriminate|reflexivity].
    - apply doubleo_while_step.
      destruct (gtb (dd st) tol); [reflexivity|discriminate]. }
  split.
  { intros n v st. apply doubleo_while_Running. }
  split.
  - intros fuel k g H. apply doubleo_Return_inv in H.
    destruct H as (x & j & st & Hx & Hj & Hp & Hr & Hs & Hk & Hg).
    exists x, j, st. unfold leb. rewrite Hs.
    destruct j as [|j]; [lia|].
    destruct (doubleo_passes_last _ _ _ _ _ _ Hp) as [Hg1 Hk1].
    repeat split; auto; try lia; congruence.
  - intros fuel j x st k g Hx Hp Hr Hs Hk Hg Hf.
    unfold doubleo. rewrite result_bind, result_solve, Hx.
    eapply doubleo_while_Return_intro; eauto.
    unfold leb in Hs. destruct (gtb (dd st) tol); [discriminate|reflexivity].
Qed.

(** C10: with tol >= 1 the first test of the loop, 1 > tol, is false, no
    pass runs and k1 and g1 stay unbound: [doubleo] returns nothing for any
    amount of fuel, and once its first solve has returned it raises
    UnboundLocalError at [return k1, g1]. *)
Theorem doubleo_large_tol_unbound (fuel : nat) (A C Q R : matrix)
  (tol : scalar) :
  leb (lit 1) tol = true ->
  (forall x : matrix,
     gtb (dd (doubleo_init A C Q x)) tol = false /\
     k1 (doubleo_init A C Q x) = None /\
     g1 (doubleo_init A C Q x) = None) /\
  (forall k g : matrix, result (doubleo fuel A C Q R tol) <> Return (k, g)) /\
  result (doubleo fuel A C Q R tol) <> Running /\
  (forall x : matrix,
     solve R C = Some x ->
     doubleo fuel A C Q R tol = ([(R, C)], Raise (UnboundLocalError "k1"))).
Proof.
  intros Htol.
  assert (Hg : forall x, gtb (dd (doubleo_init A C Q x)) tol = false).
  { intros x. cbn [doubleo_init dd]. unfold leb in Htol.
    destruct (gtb (lit 1) tol); [discriminate|reflexivity]. }
  assert (Hcases :
    doubleo fuel A C Q R tol =
    match solve R C with
    | Some _ => ([(R, C)], Raise (UnboundLocalError "k1"))
    | None => ([(R, C)], Raise (solve_error R C))
    end).
  { unfold doubleo, solve_.
    destruct (solve R C) as [x|]; [|reflexivity].
    cbn [bind]. rewrite doubleo_while_stop by apply Hg. reflexivity. }
  split; [intros x; split; [apply Hg|split; reflexivity]|].
  split; [|split].
  - intros k g. rewrite Hcases. destruct (solve R C); discriminate.
  - rewrite Hcases. destruct (solve R C); discriminate.
  - intros x Hx. rewrite Hcases, Hx. reflexivity.
Qed.

End DoubleoClaims.

(** ** olrp *)

Section OlrpProperties.

Context {K : LinAlg}.
Local Open Scope mat_scope.

Lemma result_sqrt (x : scalar) :
  result (sqrt_ x) =
  match sqrt x with
  | Some y => Return y
  | None => Raise (ValueError sqrt_msg)
  end.
Proof. unfold sqrt_. destruct (sqrt x); reflexivity. Qed.

Lemma calls_sqrt (x : scalar) : calls (sqrt_ x) = [].
Proof. unfold sqrt_. destruct (sqrt x); reflexivity. Qed.

Lemma result_sqrt_inv (x y : scalar) :
  result (sqrt_ x) = Return y -> sqrt x = Some y.
Proof. rewrite result_sqrt. destruct (sqrt x); congruence. Qed.

Variables (beta : scalar) (A B Q R W : matrix) (tol : scalar).
Variable max_iter : Z.

(** The else branch is the loop from P0 = -0.1 I. *)
Lemma olrp_else (fuel : nat) (W' : option matrix) :
  gtb (max_abs_eig R) eig_tol = false ->
  olrp fuel beta A B Q R W' tol max_iter =
  olrp_for (Z.to_nat max_iter) max_iter beta A B Q R (olrp_W A B W') tol
    (scale (lit (-1 # 10)) (eye (max_shape A))).
Proof. intros H. unfold olrp. rewrite H. reflexivity. Qed.

(** A pair that the loop returns is the (f1, p1) of a pass whose metric
    max(f1 - f0) is above [tol]. *)
Lemma olrp_for_Return_metric (n : nat) (F P : matrix) :
  forall p0 : matrix,
  result (olrp_for n max_iter beta A B Q R W tol p0) = Return (F, P) ->
  exists p f0 : matrix,
    solve (R + scale beta (B^T @ p @ B))
          (scale beta (B^T @ p @ A) + W^T) = Some f0 /\
    P = scale beta (A^T @ p @ A) + Q - (scale beta (A^T @ p @ B) + W) @ f0 /\
    solve (R + scale beta (B^T @ P @ B))
          (scale beta (B^T @ P @ A) + W^T) = Some F /\
    gtb (amax (F - f0)) tol = true.
Proof.
  induction n as [|n IH]; intros p0 H; [discriminate|].
  cbn [olrp_for] in H.
  apply result_bind_inv in H. destruct H as (f0 & Hf0 & H).
  apply result_solve_inv in Hf0.
  apply result_bind_inv in H. destruct H as (f1 & Hf1 & H).
  apply result_solve_inv in Hf1.
  cbn zeta in H.
  destruct (gtb (amax (f1 - f0)) tol) eqn:Hd.
  - cbn in H. injection H as <- <-. exists p0, f0. auto.
  - apply IH in H. exact H.
Qed.

(** A pass whose metric is at most [tol] does not end the loop. *)
Lemma olrp_for_converged_goes_on (n : nat) (p0 f0 f1 : matrix) :
  solve (R + scale beta (B^T @ p0 @ B))
        (scale beta (B^T @ p0 @ A) + W^T) = Some f0 ->
  let p1 := scale beta (A^T @ p0 @ A) + Q
            - (scale beta (A^T @ p0 @ B) + W) @ f0 in
  solve (R + scale beta (B^T @ p1 @ B))
        (scale beta (B^T @ p1 @ A) + W^T) = Some f1 ->
  leb (amax (f1 - f0)) tol = true ->
  result (olrp_for (S n) max_iter beta A B Q R W tol p0) =
  result (olrp_for n max_iter beta A B Q R W tol p1).
Proof.
  intros Hf0 p1 Hf1 Hd. cbn [olrp_for].
  rewrite result_bind, result_solve, Hf0.
  rewrite result_bind, result_solve. fold p1. rewrite Hf1.
  cbn zeta. unfold leb in Hd.
  destruct (gtb (amax (f1 - f0)) tol); [discriminate|reflexivity].
Qed.

End OlrpProperties.

Section OlrpClaims.

Context {K : LinAlg}.
Local Open Scope mat_scope.

(** C5: when the largest eigenvalue modulus of R exceeds 1e-5, [olrp]
    takes the first branch, whose first solve is solve(R, W^T): it
    returns (F, P) exactly when, for r = sqrt(beta) and X = solve(R, W^T),
    the call doubleo((r(A - B.X))^T, (r B)^T, Q - W.X, R) returns (K, S)
    with F = K^T + X and P = S. *)
Theorem olrp_primary_branch (fuel : nat) (beta : scalar)
  (A B Q R : matrix) (W : option matrix) (tol : scalar) (max_iter : Z) :
  gtb (max_abs_eig R) (lit (1 # 100000)) = true ->
  (forall F P : matrix,
   result (olrp fuel beta A B Q R W tol max_iter) = Return (F, P) <->
   exists (r : scalar) (X K S : matrix),
     sqrt beta = Some r /\
     solve R (olrp_W A B W)^T = Some X /\
     result (doubleo fuel (scale r (A - B @ X))^T (scale r B)^T
               (Q - olrp_W A B W @ X) R (lit (1 # 1000000000000000)))
     = Return (K, S) /\
     F = K^T + X /\ P = S) /\
  (forall r : scalar,
   sqrt beta = Some r ->
   exists l : list solve_call,
     calls (olrp fuel beta A B Q R W tol max_iter) =
     (R, (olrp_W A B W)^T) :: l).
Proof.
  intros Heig. unfold olrp. fold eig_tol in Heig. rewrite Heig.
  set (W' := olrp_W A B W). fold doubleo_tol.
  split; [intros F P|].
  2:{ intros r Hr. rewrite calls_bind, calls_sqrt, result_sqrt, Hr.
      rewrite calls_bind, calls_solve. cbn [app]. eauto. }
  split.
  - intros H.
    apply result_bind_inv in H. destruct H as (r & Hr & H).
    apply result_sqrt_inv in Hr.
    apply result_bind_inv in H. destruct H as (x & Hx & H).
    apply result_solve_inv in Hx.
    apply result_bind_inv in H. destruct H as (r' & Hr' & H).
    apply result_sqrt_inv in Hr'.
    apply result_bind_inv in H. destruct H as (x' & Hx' & H).
    apply result_solve_inv in Hx'.
    apply result_bind_inv in H. destruct H as ([k s] & Hks & H).
    apply result_bind_inv in H. destruct H as (x'' & Hx'' & H).
    apply result_solve_inv in Hx''.
    cbn in H. injection H as <- <-.
    assert (r' = r) by congruence.
    assert (x' = x) by congruence.
    assert (x'' = x) by congruence. subst r' x' x''.
    exists r, x, k, s. auto.
  - intros (r & X & k & s & Hr & HX & Hks & -> & ->).
    rewrite result_bind, result_sqrt, Hr.
    rewrite result_bind, result_solve, HX.
    rewrite result_bind, result_sqrt, Hr.
    rewrite result_bind, result_solve, HX.
    rewrite result_bind, Hks.
    rewrite result_bind, result_solve, HX.
    reflexivity.
Qed.

(** C6, amended: when the largest eigenvalue modulus of R is at most 1e-5
    (the all-zero R for one), [olrp] takes its else branch: it is the
    value iteration started from P0 = -0.1 I of the size of A, and with
    max_iter >= 1 the first solve it calls is the one of line 221 with
    this P0, against R + beta.B^T.P0.B. *)
Theorem olrp_fallback_branch (fuel : nat) (beta : scalar)
  (A B Q R : matrix) (W : option matrix) (tol : scalar) (max_iter : Z) :
  leb (max_abs_eig R) (lit (1 # 100000)) = true ->
  olrp fuel beta A B Q R W tol max_iter =
    olrp_for (Z.to_nat max_iter) max_iter beta A B Q R (olrp_W A B W) tol
      (scale (lit (-1 # 10)) (eye (max_shape A))) /\
  ((1 <= max_iter)%Z ->
   exists l : list solve_call,
     calls (olrp fuel beta A B Q R W tol max_iter) =
     (R + scale beta
            (B^T @ scale (lit (-1 # 10)) (eye (max_shape A)) @ B),
      scale beta (B^T @ scale (lit (-1 # 10)) (eye (max_shape A)) @ A)
      + (olrp_W A B W)^T) :: l).
Proof.
  intros Heig.
  assert (Hg : gtb (max_abs_eig R) eig_tol = false).
  { unfold leb in Heig. unfold eig_tol.
    destruct (gtb (max_abs_eig R) _); [discriminate|reflexivity]. }
  split.
  - apply olrp_else. exact Hg.
  - intros Hpos. rewrite olrp_else by exact Hg.
    destruct (Z.to_nat max_iter) as [|n] eqn:Hn; [lia|].
    cbn [olrp_for]. rewrite calls_bind, calls_solve. cbn [app]. eauto.
Qed.

(** C7: with max_iter = 0 the else branch raises its ValueError, whose
    message names 0, and no [solve] has been called. *)
Theorem olrp_zero_max_iter (fuel : nat) (beta : scalar)
  (A B Q R : matrix) (W : option matrix) (tol : scalar) :
  leb (max_abs_eig R) (lit (1 # 100000)) = true ->
  olrp fuel beta A B Q R W tol 0 =
  ([], Raise (ValueError
                "No convergence: Iteration limit of 0 reached in OLRP")).
Proof.
  intros Heig. rewrite olrp_else; [reflexivity|].
  unfold leb in Heig. unfold eig_tol.
  destruct (gtb (max_abs_eig R) _); [discriminate|reflexivity].
Qed.

End OlrpClaims.

(** ** doublej on the store *)

Section StoreProperties.

Context {K : LinAlg}.
Local Open Scope mat_scope.

Lemma load_app (s l : store) (r : ref) :
  (r < length s)%nat -> load (s ++ l) r = load s r.
Proof. intros H. unfold load. apply app_nth1. exact H. Qed.

Lemma load_alloc (s : store) (m : matrix) : load (s ++ [m]) (length s) = m.
Proof. unfold load. apply nth_middle. Qed.

(** A pass allocates two arrays and writes to none. *)
Lemma doublej_pass_obj_spec (s : store) (v : doublej_names) :
  bound s v ->
  exists l : store,
    fst (doublej_pass_obj s v) = (s ++ l)%list /\
    bound (fst (doublej_pass_obj s v)) (snd (doublej_pass_obj s v)) /\
    values (fst (doublej_pass_obj s v)) (snd (doublej_pass_obj s v)) =
    doublej_pass (values s v) /\
    gamma1_ref (snd (doublej_pass_obj s v)) = Some (S (length s)).
Proof.
  intros (Ha & Hg & _).
  unfold doublej_pass_obj, alloc. cbn [fst snd].
  set (m1 := load s (alpha0_ref v) @ load s (alpha0_ref v)).
  set (s1 := (s ++ [m1])%list).
  assert (Hlen1 : length s1 = S (length s)).
  { unfold s1. rewrite length_app. simpl. lia. }
  assert (Hl1 : forall r, (r < length s)%nat -> load s1 r = load s r).
  { intros r Hr. apply load_app. exact Hr. }
  rewrite !(Hl1 _ Ha), !(Hl1 _ Hg).
  set (m2 := load s (gamma0_ref v)
             + load s (alpha0_ref v) @ load s (gamma0_ref v)
               @ (load s (alpha0_ref v))^T).
  exists [m1; m2]. split; [|split; [|split]].
  - unfold s1. rewrite <- app_assoc. reflexivity.
  - unfold bound. cbn [alpha0_ref gamma0_ref gamma1_ref].
    rewrite length_app, Hlen1. simpl. lia.
  - unfold values, doublej_pass.
    cbn [alpha0_ref gamma0_ref gamma1_ref diff_val n_its_val option_map
         alpha0 gamma0 diff n_its].
    rewrite load_alloc.
    rewrite (load_app s1 [m2]) by lia.
    rewrite (load_app s1 [m2]) by lia.
    rewrite (Hl1 _ Hg).
    unfold s1. rewrite load_alloc. reflexivity.
  - cbn [gamma1_ref]. rewrite Hlen1. reflexivity.
Qed.

(** The loop on the store only allocates, and its outcome is the one of
    the loop on the values. *)
Lemma doublej_while_obj_spec (fuel : nat) (max_it : Z) :
  forall (s : store) (v : doublej_names),
  bound s v ->
  exists l : store,
    fst (doublej_while_obj fuel max_it s v) = (s ++ l)%list /\
    observe (fst (doublej_while_obj fuel max_it s v))
            (snd (doublej_while_obj fuel max_it s v)) =
    doublej_while fuel max_it (values s v) /\
    forall r, snd (doublej_while_obj fuel max_it s v) = Return r ->
              (r < length (s ++ l))%nat /\
              (gamma1_ref v = Some r \/ (length s <= r)%nat).
Proof.
  assert (Hstop : forall (s : store) (v : doublej_names) (o : outcome ref),
    bound s v ->
    o = match gamma1_ref v with
        | Some g => Return g
        | None => Raise (UnboundLocalError "gamma1")
        end ->
    observe s o =
    match gamma1 (values s v) with
    | Some g => Return g
    | None => Raise (UnboundLocalError "gamma1")
    end /\
    forall r, o = Return r ->
              (r < length s)%nat /\
              (gamma1_ref v = Some r \/ (length s <= r)%nat)).
  { intros s v o (_ & _ & Hb) ->. cbn [values gamma1].
    destruct (gamma1_ref v) as [r|]; cbn [observe option_map].
    - split; [reflexivity|]. intros r' Hr'. injection Hr' as <-. auto.
    - split; [reflexivity|]. discriminate. }
  assert (Hpair : forall (s : store) (v : doublej_names),
    match gamma1_ref v with
    | Some g => (s, Return g)
    | None => (s, Raise (UnboundLocalError "gamma1"))
    end =
    (s, match gamma1_ref v with
        | Some g => Return g
        | None => Raise (UnboundLocalError "gamma1")
        end)).
  { intros s v. destruct (gamma1_ref v); reflexivity. }
  induction fuel as [|fuel IH]; intros s v Hb;
    cbn [doublej_while_obj doublej_while];
    change (diff (values s v)) with (diff_val v);
    destruct (gtb (diff_val v) tol_j).
  - exists []. rewrite app_nil_r. repeat split; discriminate.
  - rewrite (Hpair s v). cbn [fst snd].
    exists []. rewrite app_nil_r.
    split; [reflexivity|]. apply Hstop; [exact Hb|reflexivity].
  - destruct (doublej_pass_obj_spec Hb) as (l1 & Hs1 & Hb1 & Hv1 & Hg1).
    destruct (doublej_pass_obj s v) as [s1 v1]. cbn [fst snd] in *.
    cbn zeta. rewrite <- Hv1.
    change (n_its (values s1 v1)) with (n_its_val v1).
    destruct (n_its_val v1 >? max_it)%Z.
    + exists l1. cbn [fst snd observe]. repeat split; auto; discriminate.
    + destruct (IH s1 v1 Hb1) as (l2 & Hs2 & Ho & Hr).
      exists (l1 ++ l2)%list. rewrite app_assoc, <- Hs1.
      split; [exact Hs2|]. split; [exact Ho|].
      intros r Hret. destruct (Hr r Hret) as [Hlt Hfresh].
      split; [exact Hlt|]. right.
      assert (Hlen : (length s <= length s1)%nat).
      { rewrite Hs1, length_app. lia. }
      destruct Hfresh as [Hfresh|Hfresh]; [|lia].
      rewrite Hg1 in Hfresh. injection Hfresh as <-. lia.
  - rewrite (Hpair s v). cbn [fst snd].
    exists []. rewrite app_nil_r.
    split; [reflexivity|]. apply Hstop; [exact Hb|reflexivity].
Qed.

(** A call of [doublej] on the store: it only allocates, its outcome is
    the one of [doublej] on the arrays that its arguments refer to, and an
    array it returns is a new one. *)
Lemma doublej_obj_spec (s : store) (a1 b1 : ref) (max_it : Z) :
  (a1 < length s)%nat -> (b1 < length s)%nat ->
  exists l : store,
    fst (doublej_obj s a1 b1 max_it) = (s ++ l)%list /\
    observe (fst (doublej_obj s a1 b1 max_it))
            (snd (doublej_obj s a1 b1 max_it)) =
    doublej (load s a1) (load s b1) max_it /\
    forall r, snd (doublej_obj s a1 b1 max_it) = Return r ->
              (length s <= r < length (s ++ l))%nat.
Proof.
  intros Ha Hb. unfold doublej_obj.
  set (v := {| alpha0_ref := a1; gamma0_ref := b1; diff_val := lit 5;
               n_its_val := 1; gamma1_ref := None |}).
  assert (Hv : bound s v) by (unfold bound, v; cbn; auto).
  destruct (doublej_while_obj_spec (Z.to_nat (Z.max 1 max_it)) max_it Hv)
    as (l & Hs & Ho & Hr).
  exists l. split; [exact Hs|]. split; [exact Ho|].
  intros r Hret. destruct (Hr r Hret) as [Hlt [Hold|Hnew]].
  - discriminate.
  - lia.
Qed.

(** C9: the outcome of a call of [doublej] is a function of the arrays its
    arguments refer to and of max_it, whatever else the store holds; the
    call writes to no array of the store, so that a second call with the
    same arguments has the same outcome, an equal array or the same
    exception, and leaves the array of the first call as it was. *)
Theorem doublej_deterministic (s : store) (a1 b1 : ref) (max_it : Z) :
  (a1 < length s)%nat -> (b1 < length s)%nat ->
  let call1 := doublej_obj s a1 b1 max_it in
  let call2 := doublej_obj (fst call1) a1 b1 max_it in
  observe (fst call2) (snd call2) = observe (fst call1) (snd call1) /\
  observe (fst call2) (snd call1) = observe (fst call1) (snd call1) /\
  (forall r, (r < length s)%nat -> load (fst call1) r = load s r) /\
  snd call1 <> Running /\
  forall (s' : store) (a1' b1' : ref),
    (a1' < length s')%nat -> (b1' < length s')%nat ->
    load s' a1' = load s a1 -> load s' b1' = load s b1 ->
    observe (fst (doublej_obj s' a1' b1' max_it))
            (snd (doublej_obj s' a1' b1' max_it)) =
    observe (fst call1) (snd call1).
Proof.
  intros Ha Hb call1 call2.
  destruct (@doublej_obj_spec s a1 b1 max_it Ha Hb) as (l & Hs & Ho & Hr).
  fold call1 in Hs, Ho, Hr.
  assert (Hkeep : forall r, (r < length s)%nat ->
                            load (fst call1) r = load s r).
  { intros r Hlt. rewrite Hs. apply load_app. exact Hlt. }
  assert (Ha1 : (a1 < length (fst call1))%nat).
  { rewrite Hs, length_app. lia. }
  assert (Hb1 : (b1 < length (fst call1))%nat).
  { rewrite Hs, length_app. lia. }
  destruct (@doublej_obj_spec _ a1 b1 max_it Ha1 Hb1) as (l2 & Hs2 & Ho2 & _).
  fold call2 in Hs2, Ho2.
  split; [|split; [|split; [|split]]].
  - rewrite Ho2, Ho, !Hkeep by assumption. reflexivity.
  - destruct (snd call1) as [r| |] eqn:Hret; try reflexivity.
    cbn [observe]. rewrite Hs2. rewrite load_app; [reflexivity|].
    rewrite Hs. apply Hr. reflexivity.
  - exact Hkeep.
  - intros Hrun. rewrite Hrun in Ho. cbn [observe] in Ho.
    destruct (doublej_total (load s a1) (load s b1) max_it) as [[g Hg]|Hg];
      congruence.
  - intros s' a1' b1' Ha' Hb' Hea Heb.
    destruct (@doublej_obj_spec s' a1' b1' max_it Ha' Hb')
      as (l' & _ & Ho' & _).
    rewrite Ho', Ho, Hea, Heb. reflexivity.
Qed.

End StoreProperties.

(** ** The two iteration limits *)

Section Limits.

Context {K : LinAlg}.
Local Open Scope mat_scope.

(** [doublej] with [max_it <= 1] raises on every input: the counter is 2
    after the first pass. *)
Lemma doublej_cap_le_1 (a1 b1 : matrix) (max_it : Z) :
  (max_it <= 1)%Z ->
  doublej a1 b1 max_it = Raise (ValueError (doublej_msg max_it)).
Proof.
  intros H. apply doublej_raises_iff. intros j H1 Hj. lia.
Qed.

(** [doublej] raises also when the test first holds at step [max_it]. *)
Lemma doublej_converged_at_cap (a1 b1 : matrix) (j : nat) :
  (1 <= j)%nat ->
  (forall i, (1 <= i < j)%nat -> converged_at i a1 b1 = false) ->
  doublej a1 b1 (Z.of_nat j) =
  Raise (ValueError (doublej_msg (Z.of_nat j))).
Proof.
  intros H1 Hmin. apply doublej_raises_iff. intros i Hi Hlt.
  apply Hmin. lia.
Qed.

(** What the else branch of [olrp] returns is the (f1, p1) of a pass whose
    metric max(f1 - f0) is above [tol]. *)
Lemma olrp_fallback_Return_metric (fuel : nat) (beta : scalar)
  (A B Q R : matrix) (W : option matrix) (tol : scalar) (max_iter : Z)
  (F P : matrix) :
  gtb (max_abs_eig R) eig_tol = false ->
  result (olrp fuel beta A B Q R W tol max_iter) = Return (F, P) ->
  exists f0 : matrix, gtb (amax (F - f0)) tol = true.
Proof.
  intros Heig H. rewrite olrp_else in H by exact Heig.
  apply olrp_for_Return_metric in H.
  destruct H as (p & f0 & _ & _ & _ & Hd). eauto.
Qed.

End Limits.

(** * The routines on concrete systems *)

Section Concrete.

Local Open Scope Q_scope.

(** [q_solve] on a system that needs no row exchange and on one that
    does, and on a singular one. *)
Example q_solve_examples :
  q_solve [[2; 1]; [1; 3]] (q_eye 2) =
    Some [[3 # 5; -1 # 5]; [-1 # 5; 2 # 5]] /\
  q_dot [[2; 1]; [1; 3]] [[3 # 5; -1 # 5]; [-1 # 5; 2 # 5]] = q_eye 2 /\
  q_solve [[0; 1]; [1; 0]] [[2]; [3]] = Some [[3]; [2]] /\
  q_solve [[1; 2]; [2; 4]] [[1]; [1]] = None.
Proof. vm_compute. repeat split. Qed.

(** The scalar system A = 0.5, C = Q = R = 1: the covariance that
    [doubleo] returns with its default tolerance satisfies the scalar
    Riccati equation s = a.s.a + q - (a.s.c)^2 / (c.s.c + r) up to 1e-15. *)
Example doubleo_scalar_riccati :
  exists k s : Q,
    result (doubleo (K:=QDense) 5 A_half one one one (1 # 1000000000000000))
    = Return ([[k]], [[s]]) /\
    Qabs (s - ((1 # 4) * s + 1 - ((1 # 2) * s) * ((1 # 2) * s) / (s + 1)))
    <= 1 # 1000000000000000.
Proof.
  eexists. eexists. split.
  - vm_compute. reflexivity.
  - vm_compute. discriminate.
Qed.

(** C2 (the code at the failing input): with a1 = 0 the estimate of step 1
    is b1 again, so the test holds at step 1; [doublej] called with
    max_it = 1 raises all the same, and returns b1 with max_it = 2.  With
    a1 = 1/2 the test first holds at step 6, and [doublej] raises with
    max_it = 6. *)
Theorem doublej_raises_at_cap :
  converged_at (K:=QDense) 1 [[0]] one = true /\
  doublej (K:=QDense) [[0]] one 1 =
    Raise (ValueError
             "Exceeded maximum iterations of 1. Check your input matrices") /\
  doublej (K:=QDense) [[0]] one 2 = Return one /\
  converged_at (K:=QDense) 6 A_half one = true /\
  doublej (K:=QDense) A_half one 6 =
    Raise (ValueError
             "Exceeded maximum iterations of 6. Check your input matrices") /\
  doublej (K:=QDense) A_half one 7 =
    Return (snd (doubling_pair (K:=QDense) 6 A_half one)).
Proof. vm_compute. repeat split. Qed.

(** C1 (the code at the failing inputs): for beta = 1, A = B = Q = 1,
    R = 0 and W = 1 the first pass has f0 = -9 and f1 = 10/9, a metric of
    91/9, and [olrp] returns its (f1, p1) = (10/9, 9); for W = 0 every
    pass has f0 = f1 = 1, a metric of 0, and [olrp] raises after 1000
    passes. *)
Theorem olrp_fallback_inverted_test :
  olrp (K:=QDense) 0 1 one one one [[0]] (Some one) q_tol 1000 =
    ([([[-1 # 10]], [[9 # 10]]); ([[9]], [[10]])],
     Return ([[10 # 9]], [[9]])) /\
  q_solve [[-1 # 10]] [[9 # 10]] = Some [[-9]] /\
  q_solve [[9]] [[10]] = Some [[10 # 9]] /\
  q_gtb (q_amax (q_sub [[10 # 9]] [[-9]])) q_tol = true /\
  result (olrp (K:=QDense) 0 1 one one one [[0]] None q_tol 1000) =
    Raise (ValueError
             "No convergence: Iteration limit of 1000 reached in OLRP") /\
  calls (olrp (K:=QDense) 0 1 one one one [[0]] None q_tol 1000) =
    ([[-1 # 10]], [[-1 # 10]]) :: repeat (one, one) 1999 /\
  q_solve [[-1 # 10]] [[-1 # 10]] = Some one /\
  q_solve one one = Some one /\
  leb (K:=QDense) (q_amax (q_sub one one)) q_tol = true.
Proof. vm_compute. repeat split. Qed.

(** C6 (counterexample): R = diag(1, 0) is singular and its largest
    eigenvalue modulus is 1; [olrp] takes the first branch and the solve
    against R raises.  For R = 0 and B = 0 [olrp] takes the else branch,
    whose first solve is against R + beta.B^T.P0.B = R, and it raises. *)
Lemma olrp_singular_R_raises :
  q_solve R_singular (q_eye 2) = None /\
  q_max_abs_eig R_singular = 1 /\
  olrp (K:=QDense) 0 1 (q_eye 2) (q_eye 2) (q_eye 2) R_singular None
       q_tol 1000 =
    ([(R_singular, q_zeros 2 2)], Raise LinAlgError) /\
  q_solve [[0]] one = None /\
  leb (K:=QDense) (max_abs_eig [[0]]) (lit (1 # 100000)) = true /\
  olrp (K:=QDense) 0 1 one [[0]] one [[0]] None q_tol 1000 =
    ([([[0]], [[0]])], Raise LinAlgError).
Proof. vm_compute. repeat split. Qed.

Lemma doublej_doubling_recursion_witness :
  doublej (K:=QDense) A_half one 7 =
    Return [[113427455640312821154458202477256070485
             # 85070591730234615865843651857942052864]] /\
  exists j : nat,
    (1 <= j)%nat /\
    [[113427455640312821154458202477256070485
      # 85070591730234615865843651857942052864]] =
    snd (doubling_pair (K:=QDense) j A_half one) /\
    converged_at (K:=QDense) j A_half one = true /\
    forall i, (1 <= i < j)%nat -> converged_at (K:=QDense) i A_half one = false.
Proof.
  assert (H : doublej (K:=QDense) A_half one 7 =
              Return [[113427455640312821154458202477256070485
                       # 85070591730234615865843651857942052864]])
    by (vm_compute; reflexivity).
  split; [exact H|].
  exact (proj2 (proj2 (proj2 (proj2 (proj2
           (doublej_doubling_recursion (K:=QDense) A_half one))))) 7%Z _ H).
Defined.

Lemma doubleo_derivation_and_update_witness :
  result (doubleo (K:=QDense) 2 A_half one one one (1 # 1000)) =
    Return ([[657 # 2474]], [[657 # 580]]) /\
  exists (x : qmatrix) (j : nat) (a b : qmatrix),
    q_solve one one = Some x /\
    (1 <= j <= 2)%nat /\
    riccati_iter (K:=QDense) j (q_eye (max_shape (K:=QDense) A_half))
      (q_transpose A_half, q_dot (q_transpose one) x, one) =
    Some (a, b, [[657 # 580]]).
Proof.
  assert (H : result (doubleo (K:=QDense) 2 A_half one one one (1 # 1000)) =
              Return ([[657 # 2474]], [[657 # 580]]))
    by (vm_compute; reflexivity).
  split; [exact H|].
  exact (proj2 (proj2 (proj2 (proj2
           (doubleo_derivation_and_update (K:=QDense) A_half one one one
              (1 # 1000) 2)))) _ _ H).
Defined.

Lemma doubleo_gain_metric_and_return_witness :
  result (doubleo (K:=QDense) 2 A_half one one one (1 # 1000)) =
    Return ([[657 # 2474]], [[657 # 580]]) /\
  exists (x : qmatrix) (j : nat) (st : doubleo_vars (K:=QDense)),
    q_solve one one = Some x /\
    (1 <= j <= 2)%nat /\
    result (doubleo_passes (K:=QDense) j A_half one one
              (q_eye (max_shape (K:=QDense) A_half))
              (doubleo_init (K:=QDense) A_half one one x)) = Return st /\
    runs_on (K:=QDense) A_half one one
      (q_eye (max_shape (K:=QDense) A_half)) (1 # 1000) j
      (doubleo_init (K:=QDense) A_half one one x) /\
    leb (K:=QDense) (dd st) (1 # 1000) = true /\
    k1 st = Some [[657 # 2474]] /\ g1 st = Some [[657 # 580]] /\
    g0 st = [[657 # 580]] /\
    kalman_gain (K:=QDense) A_half one one [[657 # 580]] =
    Some [[657 # 2474]].
Proof.
  assert (H : result (doubleo (K:=QDense) 2 A_half one one one (1 # 1000)) =
              Return ([[657 # 2474]], [[657 # 580]]))
    by (vm_compute; reflexivity).
  split; [exact H|].
  exact (proj1 (proj2 (proj2 (proj2
           (doubleo_gain_metric_and_return (K:=QDense) A_half one one one
              (1 # 1000))))) 2%nat _ _ H).
Defined.

Lemma olrp_primary_branch_witness :
  @gtb QDense (max_abs_eig one) (lit (1 # 100000)) = true /\
  forall F P : qmatrix,
  result (olrp (K:=QDense) 8 1 A_half one one one None q_tol 1000)
  = Return (F, P) <->
  exists (r : Q) (X K S : qmatrix),
    q_sqrt 1 = Some r /\
    q_solve one (q_transpose (olrp_W (K:=QDense) A_half one None)) = Some X /\
    result (doubleo (K:=QDense) 8
              (q_transpose (q_scale r (q_sub A_half (q_dot one X))))
              (q_transpose (q_scale r one))
              (q_sub one (q_dot (olrp_W (K:=QDense) A_half one None) X))
              one (q_lit (1 # 1000000000000000)))
    = Return (K, S) /\
    F = q_add (q_transpose K) X /\ P = S.
Proof.
  split; [reflexivity|].
  apply (proj1 (olrp_primary_branch (K:=QDense) 8 1 A_half one one one None
                  q_tol 1000 eq_refl)).
Defined.

Lemma olrp_fallback_branch_witness :
  leb (K:=QDense) (max_abs_eig (q_zeros 2 2)) (lit (1 # 100000)) = true /\
  olrp (K:=QDense) 0 1 (q_eye 2) (q_eye 2) (q_eye 2) (q_zeros 2 2) None
       q_tol 3 =
    olrp_for (K:=QDense) 3 3 1 (q_eye 2) (q_eye 2) (q_eye 2) (q_zeros 2 2)
      (q_zeros 2 2) q_tol (q_scale (-1 # 10) (q_eye 2)) /\
  exists l : list (qmatrix * qmatrix),
    calls (olrp (K:=QDense) 0 1 (q_eye 2) (q_eye 2) (q_eye 2) (q_zeros 2 2)
             None q_tol 3) =
    ([[-1 # 10; 0]; [0; -1 # 10]], [[-1 # 10; 0]; [0; -1 # 10]]) :: l.
Proof.
  split; [reflexivity|].
  destruct (olrp_fallback_branch (K:=QDense) 0 1 (q_eye 2) (q_eye 2)
              (q_eye 2) (q_zeros 2 2) None q_tol 3 eq_refl) as [H1 H2].
  split; [exact H1|]. apply H2. lia.
Defined.

Lemma olrp_zero_max_iter_witness :
  leb (K:=QDense) (max_abs_eig (q_zeros 2 2)) (lit (1 # 100000)) = true /\
  olrp (K:=QDense) 0 1 (q_eye 2) (q_eye 2) (q_eye 2) (q_zeros 2 2) None
       q_tol 0 =
  ([], Raise (ValueError
                "No convergence: Iteration limit of 0 reached in OLRP")).
Proof.
  split; [reflexivity|].
  apply (olrp_zero_max_iter (K:=QDense)). reflexivity.
Defined.

Lemma doubleo_large_tol_unbound_witness :
  leb (K:=QDense) (lit 1) 1 = true /\
  doubleo (K:=QDense) 8 A_half one one one 1 =
  ([(one, one)], Raise (UnboundLocalError "k1")).
Proof.
  split; [reflexivity|].
  destruct (doubleo_large_tol_unbound (K:=QDense) 8 A_half one one one 1)
    as (_ & _ & _ & H); [reflexivity|].
  apply (H one). reflexivity.
Defined.

Lemma doublej_deterministic_witness :
  (0 < length [A_half; one])%nat /\ (1 < length [A_half; one])%nat /\
  observe (K:=QDense)
    (fst (doublej_obj (K:=QDense)
            (fst (doublej_obj (K:=QDense) [A_half; one] 0%nat 1%nat 50))
            0%nat 1%nat 50))
    (snd (doublej_obj (K:=QDense)
            (fst (doublej_obj (K:=QDense) [A_half; one] 0%nat 1%nat 50))
            0%nat 1%nat 50)) =
  observe (K:=QDense)
    (fst (doublej_obj (K:=QDense) [A_half; one] 0%nat 1%nat 50))
    (snd (doublej_obj (K:=QDense) [A_half; one] 0%nat 1%nat 50)).
Proof.
  assert (Ha : (0 < length [A_half; one])%nat) by (cbn; lia).
  assert (Hb : (1 < length [A_half; one])%nat) by (cbn; lia).
  split; [exact Ha|]. split; [exact Hb|].
  exact (proj1 (@doublej_deterministic QDense [A_half; one] 0%nat 1%nat
                  50%Z Ha Hb)).
Defined.

End Concrete.

(** * Further properties *)

(** ** doublej: the partial sums of the series *)

Section DoublejSeries.

Context {K : LinAlg}.
Local Open Scope mat_scope.

(** The arithmetic of matrices, as it holds without rounding. *)
Hypothesis dot_assoc : forall x y z : matrix, (x @ y) @ z = x @ (y @ z).
Hypothesis dot_add_l : forall x y z : matrix, x @ (y + z) = x @ y + x @ z.
Hypothesis dot_add_r : forall x y z : matrix, (x + y) @ z = x @ z + y @ z.
Hypothesis transpose_dot : forall x y : matrix, (x @ y)^T = y^T @ x^T.
Hypothesis add_assoc : forall x y z : matrix, (x + y) + z = x + (y + z).

Variables a b : matrix.

Lemma series_term_add (m k : nat) (M : matrix) :
  series_term a (series_term a M k) m = series_term a M (k + m).
Proof.
  induction m as [|m IH].
  - rewrite Nat.add_0_r. reflexivity.
  - rewrite Nat.add_succ_r. cbn [series_term]. rewrite IH. reflexivity.
Qed.

Lemma series_term_plus (m : nat) (X Y : matrix) :
  series_term a (X + Y) m = series_term a X m + series_term a Y m.
Proof.
  induction m as [|m IH]; [reflexivity|].
  cbn [series_term]. rewrite IH, dot_add_l, dot_add_r. reflexivity.
Qed.

Lemma series_sum_shift (m k n : nat) :
  series_term a (series_sum a b k n) m = series_sum a b (k + m) n.
Proof.
  induction n as [|n IH]; cbn [series_sum].
  - apply series_term_add.
  - rewrite series_term_plus, IH, series_term_add.
    replace (k + S n + m)%nat with (k + m + S n)%nat by lia.
    reflexivity.
Qed.

Lemma series_sum_concat (k n n' : nat) :
  series_sum a b k n + series_sum a b (k + S n) n' =
  series_sum a b k (n + S n').
Proof.
  induction n' as [|n' IH].
  - rewrite Nat.add_1_r. reflexivity.
  - rewrite (Nat.add_succ_r n (S n')). cbn [series_sum].
    rewrite <- add_assoc, IH.
    replace (k + S n + S n')%nat with (k + S (n + S n'))%nat by lia.
    reflexivity.
Qed.

(** alpha after [j] passes takes a term of the series 2^j terms on. *)
Lemma doublej_after_alpha (j : nat) :
  forall M : matrix,
  alpha0 (doublej_after j a b) @ M @ (alpha0 (doublej_after j a b))^T =
  series_term a M (2 ^ j).
Proof.
  induction j as [|j IH]; intros M; [reflexivity|].
  unfold doublej_after. rewrite Nat.iter_succ.
  fold (doublej_after j a b). cbn [doublej_pass alpha0].
  set (al := alpha0 (doublej_after j a b)) in *.
  transitivity (al @ (al @ M @ al^T) @ al^T).
  { rewrite transpose_dot, !dot_assoc. reflexivity. }
  rewrite !IH, series_term_add.
  replace (2 ^ j + 2 ^ j)%nat with (2 ^ S j)%nat by (cbn; lia).
  reflexivity.
Qed.

(** X1: without rounding, gamma after [j] passes is the sum of the first
    2^j terms a^i.b.(a^i)^T of the series of the docstring and alpha acts
    as a^(2^j); what [doublej] returns is such a sum, for a [j] from 1
    below the cap. *)
Theorem doublej_partial_sums :
  (forall j : nat,
     gamma0 (doublej_after j a b) = series_sum a b 0 (2 ^ j - 1)) /\
  (forall (j : nat) (M : matrix),
     alpha0 (doublej_after j a b) @ M @ (alpha0 (doublej_after j a b))^T =
     series_term a M (2 ^ j)) /\
  (forall (max_it : Z) (g : matrix),
     doublej a b max_it = Return g ->
     exists j : nat,
       (1 <= j)%nat /\ (Z.of_nat j < max_it)%Z /\
       g = series_sum a b 0 (2 ^ j - 1)).
Proof.
  assert (Hsum : forall j : nat,
            gamma0 (doublej_after j a b) = series_sum a b 0 (2 ^ j - 1)).
  { induction j as [|j IH]; [reflexivity|].
    unfold doublej_after. rewrite Nat.iter_succ.
    fold (doublej_after j a b). cbn [doublej_pass gamma0].
    rewrite doublej_after_alpha, IH, series_sum_shift.
    assert (Hpos : (1 <= 2 ^ j)%nat).
    { clear. induction j; cbn; lia. }
    replace (0 + 2 ^ j)%nat with (0 + S (2 ^ j - 1))%nat by lia.
    rewrite series_sum_concat.
    replace (2 ^ j - 1 + S (2 ^ j - 1))%nat with (2 ^ S j - 1)%nat
      by (cbn; lia).
    reflexivity. }
  split; [exact Hsum|]. split; [intros j M; apply doublej_after_alpha|].
  intros max_it g H. apply doublej_returns_iff in H.
  destruct H as (j & H1 & Hcap & _ & _ & ->).
  exists j. rewrite <- doublej_after_gamma, Hsum. auto.
Qed.

End DoublejSeries.

(** ** doublej: the cap *)

Section DoublejCap.

Context {K : LinAlg}.
Local Open Scope mat_scope.

(** Fuel beyond what a loop needs changes nothing. *)
Lemma doublej_while_more_fuel (fuel k : nat) (max_it : Z) :
  forall v : doublej_vars,
  doublej_while fuel max_it v <> Running ->
  doublej_while (fuel + k) max_it v = doublej_while fuel max_it v.
Proof.
  induction fuel as [|fuel IH]; intros v H.
  - cbn [doublej_while] in H. cbn [Nat.add].
    destruct (gtb (diff v) tol_j) eqn:Hg; [congruence|].
    rewrite !doublej_while_stop by assumption. reflexivity.
  - cbn [Nat.add doublej_while] in *.
    destruct (gtb (diff v) tol_j); [|reflexivity].
    cbn zeta in *.
    destruct (n_its (doublej_pass v) >? max_it)%Z; [reflexivity|].
    apply IH. exact H.
Qed.

(** X2: a call of [doublej] ends for every input: it returns the gamma of
    a pass below the cap or raises the ValueError that names max_it, it
    never reads gamma1 unbound, and [max 1 max_it] passes are all it can
    make: more fuel gives the same outcome. *)
Theorem doublej_always_ends (a1 b1 : matrix) (max_it : Z) :
  ((exists j : nat,
      (1 <= j)%nat /\ (Z.of_nat j < max_it)%Z /\
      doublej a1 b1 max_it = Return (gamma0 (doublej_after j a1 b1))) \/
   doublej a1 b1 max_it = Raise (ValueError (doublej_msg max_it))) /\
  (forall fuel : nat,
     (Z.max 1 max_it <= Z.of_nat fuel)%Z ->
     doublej_while fuel max_it (doublej_init a1 b1) = doublej a1 b1 max_it).
Proof.
  split.
  - destruct (doublej_total a1 b1 max_it) as [[g Hg]|Hr]; [left|right; exact Hr].
    pose proof Hg as Hg'. apply doublej_returns_iff in Hg'.
    destruct Hg' as (j & H1 & Hcap & _ & _ & ->).
    exists j. rewrite doublej_after_gamma. auto.
  - intros fuel Hf. unfold doublej.
    replace fuel
      with (Z.to_nat (Z.max 1 max_it) + (fuel - Z.to_nat (Z.max 1 max_it)))%nat
      by lia.
    apply doublej_while_more_fuel. fold (doublej a1 b1 max_it).
    destruct (doublej_total a1 b1 max_it) as [[g Hg]|Hr]; congruence.
Qed.

(** X3: [doublej] returns g exactly when g is the gamma of the first step
    that passes the test and that step is strictly below max_it; it raises
    exactly when no step below max_it passes the test. *)
Theorem doublej_outcome (a1 b1 : matrix) (max_it : Z) :
  (forall g : matrix,
     doublej a1 b1 max_it = Return g <->
     exists j : nat,
       (1 <= j)%nat /\ (Z.of_nat j < max_it)%Z /\
       converged_at j a1 b1 = true /\
       (forall i, (1 <= i < j)%nat -> converged_at i a1 b1 = false) /\
       g = gamma0 (doublej_after j a1 b1)) /\
  (doublej a1 b1 max_it = Raise (ValueError (doublej_msg max_it)) <->
   forall j : nat,
     (1 <= j)%nat -> (Z.of_nat j < max_it)%Z ->
     converged_at j a1 b1 = false).
Proof.
  split.
  - intros g. rewrite doublej_returns_iff.
    split; intros (j & H); exists j;
      [rewrite doublej_after_gamma|rewrite <- doublej_after_gamma]; exact H.
  - apply doublej_raises_iff.
Qed.

(** X4: a result does not depend on the cap that allowed it: what
    [doublej] returns with max_it it returns with every larger cap. *)
Theorem doublej_cap_monotone (a1 b1 : matrix) (max_it max_it' : Z)
  (g : matrix) :
  doublej a1 b1 max_it = Return g ->
  (max_it <= max_it')%Z ->
  doublej a1 b1 max_it' = Return g.
Proof.
  intros H Hle. apply doublej_returns_iff in H.
  destruct H as (j & H1 & Hcap & H). apply doublej_returns_iff.
  exists j. repeat split; try apply H; lia.
Qed.

(** X5: with a cap of 1 or less [doublej] raises on every input, after
    its first pass. *)
Theorem doublej_cap_at_most_1 (a1 b1 : matrix) (max_it : Z) :
  (max_it <= 1)%Z ->
  doublej a1 b1 max_it = Raise (ValueError (doublej_msg max_it)) /\
  doublej_while 1 max_it (doublej_init a1 b1) =
    Raise (ValueError (doublej_msg max_it)).
Proof.
  intros H. split.
  - apply doublej_raises_iff. intros j H1 Hj. lia.
  - apply doublej_while_raise; [apply five_gt_tol|].
    cbn [doublej_init n_its]. lia.
Qed.

(** X6: the array that [doublej] returns is a new object: it is none of
    the arrays of the store of the call, a1 and b1 among them, and the
    store after the call is the one before it with new arrays appended. *)
Theorem doublej_result_fresh (s : store) (a1 b1 : ref) (max_it : Z)
  (r : ref) :
  (a1 < length s)%nat -> (b1 < length s)%nat ->
  snd (doublej_obj s a1 b1 max_it) = Return r ->
  (length s <= r < length (fst (doublej_obj s a1 b1 max_it)))%nat /\
  r <> a1 /\ r <> b1 /\
  exists l : store, fst (doublej_obj s a1 b1 max_it) = (s ++ l)%list.
Proof.
  intros Ha Hb Hr.
  destruct (@doublej_obj_spec K s a1 b1 max_it Ha Hb) as (l & Hs & _ & Hfresh).
  specialize (Hfresh r Hr). rewrite Hs.
  repeat split; try lia. eauto.
Qed.

End DoublejCap.


(** ** doubleo: exceptions, solves and loops that do not end *)

Section DoubleoMore.

Context {K : LinAlg}.
Local Open Scope mat_scope.

Lemma solver_exn_solve_error (m n : matrix) : solver_exn (solve_error m n).
Proof. apply solve_error_kind. Qed.

Lemma failed_last_solve (m n : matrix) : failed_last (solve_ m n).
Proof.
  unfold failed_last, solve_. cbn [result calls fst snd].
  destruct (solve m n) eqn:Hs; [discriminate|].
  intros e H _. injection H as <-. exists [], (m, n). auto.
Qed.

Lemma failed_last_ret {X : Type} (x : X) : failed_last (ret x).
Proof. unfold failed_last. discriminate. Qed.

Lemma failed_last_raise {X : Type} (e : exn) :
  ~ solver_exn e -> failed_last (raise (A:=X) e).
Proof.
  unfold failed_last. cbn. intros Hn e' H He'. injection H as <-.
  contradiction.
Qed.

Lemma unbound_not_solver_exn (name : string) :
  ~ solver_exn (UnboundLocalError name).
Proof. intros [H|H]; discriminate. Qed.

Lemma limit_not_solver_exn (k : Z) : ~ solver_exn (ValueError (olrp_msg k)).
Proof. intros [H|H]; discriminate. Qed.

Lemma failed_last_bind {X Y : Type} (m : M X) (f : X -> M Y) :
  failed_last m -> (forall x, failed_last (f x)) -> failed_last (bind m f).
Proof.
  unfold failed_last. intros Hm Hf e. rewrite result_bind, calls_bind.
  destruct (result m) as [x|e'|] eqn:Hr; try discriminate.
  - intros H He. destruct (Hf x e H He) as (l & c & Hc & Hs).
    exists (calls m ++ l)%list, c. rewrite Hc, app_assoc. auto.
  - intros H He. injection H as ->.
    destruct (Hm e eq_refl He) as (l & c & Hc & Hs).
    exists l, c. rewrite app_nil_r. auto.
Qed.

Lemma failed_last_pass (A C R v : matrix) (st : doubleo_vars) :
  failed_last (doubleo_pass A C R v st).
Proof.
  unfold doubleo_pass.
  repeat (apply failed_last_bind; [apply failed_last_solve|intros ?]).
  apply failed_last_ret.
Qed.

(** A pass returns, with k1 and g1 bound, or raises what a solve raises. *)
Lemma doubleo_pass_result (A C R v : matrix) (st : doubleo_vars) :
  (exists st', result (doubleo_pass A C R v st) = Return st' /\
               k1 st' <> None /\ g1 st' <> None) \/
  (exists e, result (doubleo_pass A C R v st) = Raise e /\ solver_exn e).
Proof.
  unfold doubleo_pass.
  repeat (rewrite result_bind, result_solve;
          destruct (solve _ _);
          [|right; eexists; split;
            [reflexivity|apply solver_exn_solve_error]]).
  left. eexists. split; [reflexivity|]. cbn. split; discriminate.
Qed.

Lemma failed_last_while (A C R v : matrix) (tol : scalar) (fuel : nat) :
  forall st : doubleo_vars, failed_last (doubleo_while fuel A C R v tol st).
Proof.
  induction fuel as [|fuel IH]; intros st; cbn [doubleo_while];
    destruct (gtb (dd st) tol).
  - unfold failed_last. discriminate.
  - destruct (k1 st); [destruct (g1 st)|];
      (apply failed_last_ret ||
       (apply failed_last_raise; apply unbound_not_solver_exn)).
  - apply failed_last_bind; [apply failed_last_pass|exact IH].
  - destruct (k1 st); [destruct (g1 st)|];
      (apply failed_last_ret ||
       (apply failed_last_raise; apply unbound_not_solver_exn)).
Qed.

(** Once k1 and g1 are bound, the loop raises nothing but what a solve
    raises. *)
Lemma doubleo_while_Raise (A C R v : matrix) (tol : scalar) (fuel : nat)
  (e : exn) :
  forall st : doubleo_vars,
  k1 st <> None -> g1 st <> None ->
  result (doubleo_while fuel A C R v tol st) = Raise e ->
  solver_exn e.
Proof.
  induction fuel as [|fuel IH]; intros st Hk Hg H;
    cbn [doubleo_while] in H; destruct (gtb (dd st) tol).
  - discriminate.
  - destruct (k1 st); [|congruence]. destruct (g1 st); [|congruence].
    discriminate.
  - rewrite result_bind in H.
    destruct (doubleo_pass_result A C R v st)
      as [(st' & Hp & Hk' & Hg')|(e' & Hp & He')]; rewrite Hp in H.
    + eapply IH; eassumption.
    + injection H as <-. exact He'.
  - destruct (k1 st); [|congruence]. destruct (g1 st); [|congruence].
    discriminate.
Qed.

(** The exceptions of [doubleo]. *)
Lemma doubleo_Raise_cases (fuel : nat) (A C Q R : matrix) (tol : scalar)
  (e : exn) :
  result (doubleo fuel A C Q R tol) = Raise e ->
  (solver_exn e /\
   exists (l : list solve_call) (m n : matrix),
     calls (doubleo fuel A C Q R tol) = (l ++ [(m, n)])%list /\
     solve m n = None /\ e = solve_error m n) \/
  (e = UnboundLocalError "k1" /\
   gtb (lit 1) tol = false /\
   calls (doubleo fuel A C Q R tol) = [(R, C)]).
Proof.
  intros H.
  assert (Hlast : failed_last (doubleo fuel A C Q R tol)).
  { unfold doubleo. apply failed_last_bind; [apply failed_last_solve|].
    intros x. apply failed_last_while. }
  assert (Hcase : solver_exn e \/
            (e = UnboundLocalError "k1" /\
             gtb (lit 1) tol = false /\
             calls (doubleo fuel A C Q R tol) = [(R, C)])).
  { clear Hlast.
    unfold doubleo in H |- *. rewrite result_bind, result_solve in H.
    rewrite calls_bind, calls_solve, result_solve.
    destruct (solve R C) as [x|] eqn:Hx.
    2:{ left. injection H as <-. apply solver_exn_solve_error. }
    set (st0 := doubleo_init A C Q x) in *.
    destruct (gtb (dd st0) tol) eqn:Hd.
    - left.
      destruct fuel as [|fuel]; cbn [doubleo_while] in H; rewrite Hd in H;
        [discriminate|].
      rewrite result_bind in H.
      destruct (doubleo_pass_result A C R (eye (max_shape A)) st0)
        as [(st' & Hp & Hk' & Hg')|(e' & Hp & He')]; rewrite Hp in H.
      + eapply doubleo_while_Raise; eassumption.
      + injection H as <-. exact He'.
    - right. rewrite doubleo_while_stop in H |- * by exact Hd.
      cbn in H. injection H as <-. auto. }
  destruct Hcase as [He|Hu]; [left|right; exact Hu].
  split; [exact He|].
  destruct (Hlast e H He) as (l & [m n] & Hc & Hs & Hn).
  exists l, m, n. auto.
Qed.

(** X7: an exception of [doubleo] is one that the last [solve] it called
    has raised, the LinAlgError of a singular matrix or the ValueError of
    an operand that is not finite, or it is the UnboundLocalError for k1
    of a call whose tol is not below 1, raised after the one solve(R, C);
    [doubleo] never finds g1 unbound. *)
Theorem doubleo_exceptions (fuel : nat) (A C Q R : matrix) (tol : scalar)
  (e : exn) :
  result (doubleo fuel A C Q R tol) = Raise e ->
  ((e = LinAlgError \/ e = ValueError finite_msg) /\
   exists (l : list solve_call) (m n : matrix),
     calls (doubleo fuel A C Q R tol) = (l ++ [(m, n)])%list /\
     solve m n = None /\ e = solve_error m n) \/
  (e = UnboundLocalError "k1" /\
   gtb (lit 1) tol = false /\
   calls (doubleo fuel A C Q R tol) = [(R, C)]).
Proof. apply doubleo_Raise_cases. Qed.

(** The calls of a loop that returns: five for each pass. *)
Lemma doubleo_while_calls (A C R v : matrix) (tol : scalar) (fuel : nat)
  (k g : matrix) :
  forall st : doubleo_vars,
  result (doubleo_while fuel A C R v tol st) = Return (k, g) ->
  exists (j : nat) (st' : doubleo_vars),
    (j <= fuel)%nat /\
    result (doubleo_passes j A C R v st) = Return st' /\
    k1 st' = Some k /\ g1 st' = Some g /\
    length (calls (doubleo_while fuel A C R v tol st)) = (5 * j)%nat.
Proof.
  induction fuel as [|fuel IH]; intros st H;
    destruct (gtb (dd st) tol) eqn:Hg.
  - simpl in H. rewrite Hg in H. discriminate.
  - rewrite doubleo_while_stop in H |- * by assumption.
    exists 0%nat, st.
    destruct (k1 st); [|discriminate]. destruct (g1 st); [|discriminate].
    cbn in H. injection H as <- <-. repeat split; auto; lia.
  - rewrite doubleo_while_step in H |- * by assumption.
    apply result_bind_inv in H. destruct H as (st1 & H1 & H).
    apply IH in H. destruct H as (j & st' & Hj & Hp & Hk & Hg1 & Hlen).
    exists (S j), st'. repeat split; auto; try lia.
    + rewrite doubleo_passes_S, result_bind, H1. assumption.
    + rewrite calls_bind, H1, length_app, Hlen.
      rewrite (doubleo_pass_calls _ _ _ _ _ H1). cbn [length]. lia.
  - rewrite doubleo_while_stop in H |- * by assumption.
    exists 0%nat, st.
    destruct (k1 st); [|discriminate]. destruct (g1 st); [|discriminate].
    cbn in H. injection H as <- <-. repeat split; auto; lia.
Qed.

(** X8: a call of [doubleo] that returns after j passes has called
    [solve] 1 + 5 j times, with j at least 1. *)
Theorem doubleo_solve_count (fuel : nat) (A C Q R : matrix) (tol : scalar)
  (k g : matrix) :
  result (doubleo fuel A C Q R tol) = Return (k, g) ->
  exists (x : matrix) (j : nat) (st : doubleo_vars),
    solve R C = Some x /\
    (1 <= j <= fuel)%nat /\
    result (doubleo_passes j A C R (eye (max_shape A))
              (doubleo_init A C Q x)) = Return st /\
    k1 st = Some k /\ g1 st = Some g /\
    length (calls (doubleo fuel A C Q R tol)) = (1 + 5 * j)%nat.
Proof.
  unfold doubleo. intros H.
  apply result_bind_inv in H. destruct H as (x & Hx & H).
  rewrite calls_bind, Hx, calls_solve.
  apply result_solve_inv in Hx.
  apply doubleo_while_calls in H.
  destruct H as (j & st & Hj & Hp & Hk & Hg & Hlen).
  exists x, j, st. cbn [app length]. rewrite Hlen.
  repeat split; auto; try lia.
  destruct j; [|lia]. cbn in Hp. injection Hp as <-. discriminate.
Qed.

(** A pass reads a0, b0 and g0 of the locals only. *)
Lemma doubleo_pass_abg (A C R v : matrix) (st1 st2 : doubleo_vars) :
  abg st1 = abg st2 ->
  doubleo_pass A C R v st1 = doubleo_pass A C R v st2.
Proof.
  unfold abg, doubleo_pass. intros H. injection H as -> -> ->. reflexivity.
Qed.

(** X9: when a pass leaves (a0, b0, g0) as they were and dd above tol,
    [doubleo] never returns: it is in its loop for every amount of
    fuel. *)
Theorem doubleo_stationary_never_returns (A C Q R : matrix) (tol : scalar)
  (x : matrix) (st' : doubleo_vars) :
  solve R C = Some x ->
  gtb (lit 1) tol = true ->
  result (doubleo_pass A C R (eye (max_shape A)) (doubleo_init A C Q x))
  = Return st' ->
  abg st' = abg (doubleo_init A C Q x) ->
  gtb (dd st') tol = true ->
  forall fuel : nat, result (doubleo fuel A C Q R tol) = Running.
Proof.
  intros Hx H1 Hp Habg Hd fuel.
  unfold doubleo. rewrite result_bind, result_solve, Hx.
  set (v := eye (max_shape A)) in *.
  set (st0 := doubleo_init A C Q x) in *.
  assert (Hloop : forall (n : nat) (st : doubleo_vars),
            abg st = abg st0 -> gtb (dd st) tol = true ->
            result (doubleo_while n A C R v tol st) = Running).
  { induction n as [|n IH]; intros st Hst Hdd; cbn [doubleo_while];
      rewrite Hdd; [reflexivity|].
    rewrite result_bind, (@doubleo_pass_abg A C R v st st0 Hst), Hp.
    apply IH; assumption. }
  apply Hloop; [reflexivity|exact H1].
Qed.

End DoubleoMore.

(** ** olrp: the value iteration and the first branch *)

Section OlrpMore.

Context {K : LinAlg}.
Local Open Scope mat_scope.

Variables (beta : scalar) (A B Q R W : matrix) (tol : scalar).
Variable max_iter : Z.

(** The loop, pass by pass. *)
Lemma olrp_for_S_result (n : nat) (p0 : matrix) :
  match olrp_pass beta A B Q R W p0 with
  | None =>
      exists e : exn,
        result (olrp_for (S n) max_iter beta A B Q R W tol p0) = Raise e /\
        solver_exn e
  | Some (f0, p1, f1) =>
      result (olrp_for (S n) max_iter beta A B Q R W tol p0) =
      if gtb (amax (f1 - f0)) tol then Return (f1, p1)
      else result (olrp_for n max_iter beta A B Q R W tol p1)
  end.
Proof.
  cbn [olrp_for]. unfold olrp_pass.
  rewrite result_bind, result_solve.
  destruct (solve _ _) as [f0|];
    [|eexists; split; [reflexivity|apply solver_exn_solve_error]].
  rewrite result_bind, result_solve.
  destruct (solve _ _) as [f1|];
    [|eexists; split; [reflexivity|apply solver_exn_solve_error]].
  cbn zeta. destruct (gtb _ tol); reflexivity.
Qed.

Lemma olrp_pass_at_S (i : nat) (p0 : matrix) :
  olrp_pass_at (S i) beta A B Q R W p0 =
  match olrp_pass beta A B Q R W p0 with
  | Some (_, p1, _) => olrp_pass_at i beta A B Q R W p1
  | None => None
  end.
Proof.
  unfold olrp_pass_at. cbn [olrp_p].
  destruct (olrp_pass beta A B Q R W p0) as [[[f0 p1] f1]|]; reflexivity.
Qed.

Lemma olrp_for_Return_iff (n : nat) (F P : matrix) :
  forall p0 : matrix,
  result (olrp_for n max_iter beta A B Q R W tol p0) = Return (F, P) <->
  exists (j : nat) (f0 : matrix),
    (j < n)%nat /\
    olrp_pass_at j beta A B Q R W p0 = Some (f0, P, F) /\
    gtb (amax (F - f0)) tol = true /\
    forall i, (i < j)%nat ->
      exists pass, olrp_pass_at i beta A B Q R W p0 = Some pass /\
                   leb (olrp_metric pass) tol = true.
Proof.
  induction n as [|n IH]; intros p0.
  - split; [discriminate|]. intros (j & f0 & Hj & _). lia.
  - pose proof (olrp_for_S_result n p0) as HS.
    destruct (olrp_pass beta A B Q R W p0) as [[[f0 p1] f1]|] eqn:Hp.
    + rewrite HS. clear HS. destruct (gtb (amax (f1 - f0)) tol) eqn:Hd.
      * split.
        -- intros H. injection H as <- <-. exists 0%nat, f0.
           repeat split; auto; try lia.
        -- intros (j & f0' & Hj & Hat & Hm & Hbefore).
           destruct j as [|j].
           ++ unfold olrp_pass_at in Hat. cbn [olrp_p] in Hat.
              rewrite Hp in Hat. congruence.
           ++ destruct (Hbefore 0%nat) as (pass & Hat0 & Hle); [lia|].
              unfold olrp_pass_at in Hat0. cbn [olrp_p] in Hat0.
              rewrite Hp in Hat0. injection Hat0 as <-.
              unfold leb, olrp_metric in Hle. rewrite Hd in Hle.
              discriminate.
      * rewrite IH. split.
        -- intros (j & f0' & Hj & Hat & Hm & Hbefore).
           exists (S j), f0'. rewrite olrp_pass_at_S, Hp.
           repeat split; auto; try lia.
           intros [|i] Hi.
           ++ exists (f0, p1, f1). unfold olrp_pass_at. cbn [olrp_p].
              split; [exact Hp|]. unfold leb, olrp_metric. rewrite Hd.
              reflexivity.
           ++ rewrite olrp_pass_at_S, Hp. apply Hbefore. lia.
        -- intros (j & f0' & Hj & Hat & Hm & Hbefore).
           destruct j as [|j].
           ++ unfold olrp_pass_at in Hat. cbn [olrp_p] in Hat.
              rewrite Hp in Hat. injection Hat as -> -> ->. congruence.
           ++ exists j, f0'. rewrite olrp_pass_at_S, Hp in Hat.
              repeat split; auto; try lia.
              intros i Hi. specialize (Hbefore (S i) ltac:(lia)).
              rewrite olrp_pass_at_S, Hp in Hbefore. exact Hbefore.
    + destruct HS as (e & HS & He). rewrite HS. split; [discriminate|].
      intros (j & f0' & Hj & Hat & Hm & Hbefore).
      destruct j as [|j].
      * unfold olrp_pass_at in Hat. cbn [olrp_p] in Hat. congruence.
      * destruct (Hbefore 0%nat) as (pass & Hat0 & _); [lia|].
        unfold olrp_pass_at in Hat0. cbn [olrp_p] in Hat0. congruence.
Qed.

Lemma olrp_for_ValueError_iff (n : nat) :
  forall p0 : matrix,
  result (olrp_for n max_iter beta A B Q R W tol p0) =
    Raise (ValueError (olrp_msg max_iter)) <->
  forall i, (i < n)%nat ->
    exists pass, olrp_pass_at i beta A B Q R W p0 = Some pass /\
                 leb (olrp_metric pass) tol = true.
Proof.
  induction n as [|n IH]; intros p0.
  - split; [intros _ i Hi; lia|reflexivity].
  - pose proof (olrp_for_S_result n p0) as HS.
    destruct (olrp_pass beta A B Q R W p0) as [[[f0 p1] f1]|] eqn:Hp.
    + rewrite HS. clear HS. destruct (gtb (amax (f1 - f0)) tol) eqn:Hd.
      * split; [discriminate|]. intros H.
        destruct (H 0%nat) as (pass & Hat0 & Hle); [lia|].
        unfold olrp_pass_at in Hat0. cbn [olrp_p] in Hat0.
        rewrite Hp in Hat0. injection Hat0 as <-.
        unfold leb, olrp_metric in Hle. rewrite Hd in Hle. discriminate.
      * rewrite IH. split.
        -- intros H [|i] Hi.
           ++ exists (f0, p1, f1). unfold olrp_pass_at. cbn [olrp_p].
              split; [exact Hp|]. unfold leb, olrp_metric. rewrite Hd.
              reflexivity.
           ++ rewrite olrp_pass_at_S, Hp. apply H. lia.
        -- intros H i Hi. specialize (H (S i) ltac:(lia)).
           rewrite olrp_pass_at_S, Hp in H. exact H.
    + destruct HS as (e & HS & He). rewrite HS.
      split; [intros H; injection H as ->;
              destruct (limit_not_solver_exn He)|].
      intros H.
      destruct (H 0%nat) as (pass & Hat0 & _); [lia|].
      unfold olrp_pass_at in Hat0. cbn [olrp_p] in Hat0. congruence.
Qed.

(** The loop ends, after at most two solves for each pass, with a
    result, with what its last solve has raised or with its ValueError. *)
Lemma olrp_for_bounded (n : nat) :
  forall p0 : matrix,
  (length (calls (olrp_for n max_iter beta A B Q R W tol p0)) <= 2 * n)%nat /\
  result (olrp_for n max_iter beta A B Q R W tol p0) <> Running /\
  failed_last (olrp_for n max_iter beta A B Q R W tol p0) /\
  forall e, result (olrp_for n max_iter beta A B Q R W tol p0) = Raise e ->
            solver_exn e \/ e = ValueError (olrp_msg max_iter).
Proof.
  induction n as [|n IH]; intros p0.
  - cbn. repeat split; auto; try discriminate.
    + apply failed_last_raise. apply limit_not_solver_exn.
    + intros e H. injection H as <-. auto.
  - cbn [olrp_for].
    set (k := fun f0 : matrix => bind _ _).
    assert (Hk : forall f0,
              (length (calls (k f0)) <= 1 + 2 * n)%nat /\
              result (k f0) <> Running /\
              failed_last (k f0) /\
              forall e, result (k f0) = Raise e ->
                        solver_exn e \/ e = ValueError (olrp_msg max_iter)).
    { intros f0. unfold k.
      set (p1 := scale beta (A^T @ p0 @ A) + Q
                 - (scale beta (A^T @ p0 @ B) + W) @ f0).
      destruct (IH p1) as (Hlen & Hrun & Hlast & Hexn).
      split; [|split; [|split]].
      - rewrite calls_bind, calls_solve, result_solve.
        destruct (solve _ _) as [f1|]; cbn [app length]; [|lia].
        cbn zeta. destruct (gtb _ tol); [cbn; lia|lia].
      - rewrite result_bind, result_solve.
        destruct (solve _ _) as [f1|]; [|discriminate].
        cbn zeta. destruct (gtb _ tol); [discriminate|exact Hrun].
      - apply failed_last_bind; [apply failed_last_solve|].
        intros f1. cbn zeta.
        destruct (gtb _ tol); [apply failed_last_ret|exact Hlast].
      - intros e. rewrite result_bind, result_solve.
        destruct (solve _ _) as [f1|].
        + cbn zeta. destruct (gtb _ tol); [discriminate|apply Hexn].
        + intros H. injection H as <-. left. apply solver_exn_solve_error. }
    split; [|split; [|split]].
    + rewrite calls_bind, calls_solve, result_solve.
      destruct (solve _ _) as [f0|]; cbn [app length]; [|lia].
      destruct (Hk f0) as (Hlen & _). lia.
    + rewrite result_bind, result_solve.
      destruct (solve _ _) as [f0|]; [|discriminate]. apply Hk.
    + apply failed_last_bind; [apply failed_last_solve|].
      intros f0. apply Hk.
    + intros e. rewrite result_bind, result_solve.
      destruct (solve _ _) as [f0|]; [apply Hk|].
      intros H. injection H as <-. left. apply solver_exn_solve_error.
Qed.

End OlrpMore.

Section OlrpMoreClaims.

Context {K : LinAlg}.
Local Open Scope mat_scope.

(** X11: in its else branch [olrp] returns the (f1, p1) of the first pass
    whose metric max(f1 - f0) is above tol, if there is one among the
    max_iter passes and the passes up to it solve; it raises its ValueError
    exactly when each of the max_iter passes solves and has a metric of at
    most tol. *)
Theorem olrp_fallback_outcome (fuel : nat) (beta : scalar)
  (A B Q R : matrix) (W : option matrix) (tol : scalar) (max_iter : Z) :
  leb (max_abs_eig R) (lit (1 # 100000)) = true ->
  (forall F P : matrix,
     result (olrp fuel beta A B Q R W tol max_iter) = Return (F, P) <->
     exists (j : nat) (f0 : matrix),
       (j < Z.to_nat max_iter)%nat /\
       olrp_pass_at j beta A B Q R (olrp_W A B W) (olrp_p0 A)
       = Some (f0, P, F) /\
       gtb (amax (F - f0)) tol = true /\
       forall i, (i < j)%nat ->
         exists pass,
           olrp_pass_at i beta A B Q R (olrp_W A B W) (olrp_p0 A)
           = Some pass /\
           leb (olrp_metric pass) tol = true) /\
  (result (olrp fuel beta A B Q R W tol max_iter) =
     Raise (ValueError (olrp_msg max_iter)) <->
   forall i, (i < Z.to_nat max_iter)%nat ->
     exists pass,
       olrp_pass_at i beta A B Q R (olrp_W A B W) (olrp_p0 A) = Some pass /\
       leb (olrp_metric pass) tol = true).
Proof.
  intros Heig.
  assert (Hg : gtb (max_abs_eig R) eig_tol = false).
  { unfold leb in Heig. unfold eig_tol.
    destruct (gtb (max_abs_eig R) _); [discriminate|reflexivity]. }
  rewrite olrp_else by exact Hg. fold (olrp_p0 A).
  split.
  - intros F P. apply olrp_for_Return_iff.
  - apply olrp_for_ValueError_iff.
Qed.

(** X12: in its else branch [olrp] always ends, after at most
    2 max_iter calls of [solve]: with a result, with what the last solve
    it called has raised, the LinAlgError of a singular matrix or the
    ValueError of an operand that is not finite, or with its own
    ValueError; with max_iter <= 0 with that ValueError before any
    solve. *)
Theorem olrp_fallback_bounded (fuel : nat) (beta : scalar)
  (A B Q R : matrix) (W : option matrix) (tol : scalar) (max_iter : Z) :
  leb (max_abs_eig R) (lit (1 # 100000)) = true ->
  (length (calls (olrp fuel beta A B Q R W tol max_iter))
   <= 2 * Z.to_nat max_iter)%nat /\
  result (olrp fuel beta A B Q R W tol max_iter) <> Running /\
  (forall e : exn,
     result (olrp fuel beta A B Q R W tol max_iter) = Raise e ->
     ((e = LinAlgError \/ e = ValueError finite_msg) /\
      exists (l : list solve_call) (m n : matrix),
        calls (olrp fuel beta A B Q R W tol max_iter) = (l ++ [(m, n)])%list /\
        solve m n = None /\ e = solve_error m n) \/
     e = ValueError (olrp_msg max_iter)) /\
  ((max_iter <= 0)%Z ->
   olrp fuel beta A B Q R W tol max_iter =
   ([], Raise (ValueError (olrp_msg max_iter)))).
Proof.
  intros Heig.
  assert (Hg : gtb (max_abs_eig R) eig_tol = false).
  { unfold leb in Heig. unfold eig_tol.
    destruct (gtb (max_abs_eig R) _); [discriminate|reflexivity]. }
  rewrite olrp_else by exact Hg.
  destruct (olrp_for_bounded beta A B Q R (olrp_W A B W) tol max_iter
              (Z.to_nat max_iter) (scale (lit (-1 # 10)) (eye (max_shape A))))
    as (Hlen & Hrun & Hlast & Hexn).
  split; [exact Hlen|]. split; [exact Hrun|]. split.
  - intros e He. destruct (Hexn e He) as [Hs | ->]; [left|right; reflexivity].
    split; [exact Hs|].
    destruct (Hlast e He Hs) as (l & [m n] & Hc & Hn & Hx).
    exists l, m, n. auto.
  - intros Hle. replace (Z.to_nat max_iter) with 0%nat by lia. reflexivity.
Qed.

Lemma failed_last_sqrt (x : scalar) : failed_last (sqrt_ x).
Proof.
  unfold sqrt_. destruct (sqrt x); [apply failed_last_ret|].
  apply failed_last_raise. intros [H|H]; discriminate.
Qed.

(** The exceptions of the first branch of [olrp]. *)
Lemma olrp_primary_Raise_cases (fuel : nat) (beta : scalar)
  (A B Q R : matrix) (W : option matrix) (tol : scalar) (max_iter : Z)
  (e : exn) :
  gtb (max_abs_eig R) eig_tol = true ->
  result (olrp fuel beta A B Q R W tol max_iter) = Raise e ->
  (e = ValueError sqrt_msg /\ sqrt beta = None /\
   calls (olrp fuel beta A B Q R W tol max_iter) = []) \/
  (solver_exn e /\
   exists (l : list solve_call) (m n : matrix),
     calls (olrp fuel beta A B Q R W tol max_iter) = (l ++ [(m, n)])%list /\
     solve m n = None /\ e = solve_error m n) \/
  (e = UnboundLocalError "k1" /\ gtb (lit 1) doubleo_tol = false).
Proof.
  intros Heig H.
  assert (Hlast : failed_last (olrp fuel beta A B Q R W tol max_iter)).
  { unfold olrp. rewrite Heig.
    apply failed_last_bind; [apply failed_last_sqrt|intros r].
    apply failed_last_bind; [apply failed_last_solve|intros x].
    apply failed_last_bind; [apply failed_last_sqrt|intros r'].
    apply failed_last_bind; [apply failed_last_solve|intros x'].
    apply failed_last_bind.
    - unfold doubleo. apply failed_last_bind; [apply failed_last_solve|].
      intros y. apply failed_last_while.
    - intros ks.
      apply failed_last_bind; [apply failed_last_solve|intros x''].
      apply failed_last_ret. }
  assert (Hcase :
     (e = ValueError sqrt_msg /\ sqrt beta = None /\
      calls (olrp fuel beta A B Q R W tol max_iter) = []) \/
     solver_exn e \/
     (e = UnboundLocalError "k1" /\ gtb (lit 1) doubleo_tol = false)).
  { clear Hlast. unfold olrp in H |- *. rewrite Heig in H |- *.
    set (W' := olrp_W A B W) in *.
    destruct (sqrt beta) as [r|] eqn:Hs.
    - right. revert H.
      rewrite result_bind, result_sqrt, Hs.
      rewrite result_bind, result_solve.
      destruct (solve R W'^T) as [x|] eqn:Hx.
      2:{ intros H. injection H as <-.
          left. apply solver_exn_solve_error. }
      rewrite result_bind, result_sqrt, Hs.
      rewrite result_bind, result_solve, Hx.
      rewrite result_bind.
      destruct (result (doubleo fuel _ _ _ R doubleo_tol)) as [ks|e'|] eqn:Hd;
        try discriminate.
      + rewrite result_bind, result_solve, Hx. discriminate.
      + intros H. injection H as <-.
        destruct (doubleo_Raise_cases _ _ _ _ _ _ Hd)
          as [[He _] | (-> & Ht & _)]; auto.
    - left. rewrite result_bind, result_sqrt, Hs in H.
      rewrite calls_bind, calls_sqrt, result_sqrt, Hs.
      repeat split; congruence. }
  destruct Hcase as [Hq | [He | Hu]]; [left; exact Hq| |right; right; exact Hu].
  right; left. split; [exact He|].
  destruct (Hlast e H He) as (l & [m n] & Hc & Hn & Hx).
  exists l, m, n. auto.
Qed.

(** X13: in its first branch [olrp] reads neither tol nor max_iter, and it
    never raises the ValueError of the iteration limit: an exception is
    the ValueError of sqrt(beta), raised before any solve, or what the
    last solve called has raised, LinAlgError or the ValueError of an
    operand that is not finite; the UnboundLocalError of [doubleo] needs
    1 > 1e-15, the test of its loop with the default tol, to be false. *)
Theorem olrp_primary_no_limit (fuel : nat) (beta : scalar)
  (A B Q R : matrix) (W : option matrix) (tol : scalar) (max_iter : Z) :
  gtb (max_abs_eig R) (lit (1 # 100000)) = true ->
  (forall (tol' : scalar) (max_iter' : Z),
     olrp fuel beta A B Q R W tol' max_iter' =
     olrp fuel beta A B Q R W tol max_iter) /\
  (forall e : exn,
     result (olrp fuel beta A B Q R W tol max_iter) = Raise e ->
     (e = ValueError sqrt_msg /\ sqrt beta = None /\
      calls (olrp fuel beta A B Q R W tol max_iter) = []) \/
     ((e = LinAlgError \/ e = ValueError finite_msg) /\
      exists (l : list solve_call) (m n : matrix),
        calls (olrp fuel beta A B Q R W tol max_iter) = (l ++ [(m, n)])%list /\
        solve m n = None /\ e = solve_error m n) \/
     (e = UnboundLocalError "k1" /\
      gtb (lit 1) (lit (1 # 1000000000000000)) = false)) /\
  result (olrp fuel beta A B Q R W tol max_iter) <>
    Raise (ValueError (olrp_msg max_iter)).
Proof.
  intros Heig. fold eig_tol in Heig.
  split; [|split].
  - intros tol' max_iter'. unfold olrp. rewrite Heig. reflexivity.
  - intros e H. exact (olrp_primary_Raise_cases _ _ _ _ _ _ _ _ _ Heig H).
  - intros H.
    destruct (olrp_primary_Raise_cases _ _ _ _ _ _ _ _ _ Heig H)
      as [[H' _]|[[[H'|H'] _]|[H' _]]]; discriminate.
Qed.

End OlrpMoreClaims.

(** ** The limit in the messages *)

Section Messages.

Local Open Scope string_scope.

Lemma append_inj_l (p s s' : string) : p ++ s = p ++ s' -> s = s'.
Proof.
  induction p as [|c p IH]; cbn; [auto|].
  intros H. injection H as H. auto.
Qed.

Lemma length_append (s t : string) :
  String.length (s ++ t) = (String.length s + String.length t)%nat.
Proof. induction s as [|c s IH]; cbn; [reflexivity|]. rewrite IH. reflexivity. Qed.

Lemma append_inj_r (t : string) :
  forall s s' : string, s ++ t = s' ++ t -> s = s'.
Proof.
  induction s as [|c s IH]; intros [|c' s'] H; cbn in H.
  - reflexivity.
  - apply (f_equal String.length) in H. cbn in H.
    rewrite length_append in H. lia.
  - apply (f_equal String.length) in H. cbn in H.
    rewrite length_append in H. lia.
  - injection H as -> H. f_equal. auto.
Qed.

Lemma int_of_str_of_int (n : Z) : int_of_str (str_of_int n) = Some n.
Proof.
  unfold int_of_str, str_of_int. rewrite NilZero.isi.
  - cbn. rewrite DecimalZ.of_to. reflexivity.
  - destruct n; cbn; try discriminate.
    intros H. injection H as H. exact (DecimalPos.Unsigned.to_uint_nonnil _ H).
  - destruct n; cbn; try discriminate.
    intros H. injection H as H. exact (DecimalPos.Unsigned.to_uint_nonnil _ H).
Qed.

(** X14: the limit can be read back from the message of either
    ValueError: the numeral it holds parses to the limit, and the messages
    of two limits differ. *)
Theorem messages_name_the_limit :
  (forall n : Z, int_of_str (str_of_int n) = Some n) /\
  (forall n : Z,
     doublej_msg n =
     "Exceeded maximum iterations of " ++ str_of_int n
     ++ ". Check your input matrices") /\
  (forall n : Z,
     olrp_msg n =
     "No convergence: Iteration limit of " ++ str_of_int n
     ++ " reached in OLRP") /\
  (forall n n' : Z, doublej_msg n = doublej_msg n' -> n = n') /\
  (forall n n' : Z, olrp_msg n = olrp_msg n' -> n = n') /\
  (forall n n' : Z, doublej_msg n <> olrp_msg n').
Proof.
  assert (Hinj : forall n n', str_of_int n = str_of_int n' -> n = n').
  { intros n n' H. apply (f_equal int_of_str) in H.
    rewrite !int_of_str_of_int in H. congruence. }
  split; [exact int_of_str_of_int|].
  split; [reflexivity|].
  split; [reflexivity|].
  split; [|split].
  - intros n n' H. unfold doublej_msg in H.
    apply append_inj_l, append_inj_r in H. auto.
  - intros n n' H. unfold olrp_msg in H.
    apply append_inj_l, append_inj_r in H. auto.
  - intros n n'. unfold doublej_msg, olrp_msg. cbn. discriminate.
Qed.

End Messages.

(** ** The further properties on concrete systems *)

Section ConcreteMore.

Local Open Scope Q_scope.

Lemma doublej_partial_sums_witness :
  (forall x y z : Qcanon.Qc,
     Qcanon.Qcmult (Qcanon.Qcmult x y) z =
     Qcanon.Qcmult x (Qcanon.Qcmult y z)) /\
  (forall x y z : Qcanon.Qc,
     Qcanon.Qcmult x (Qcanon.Qcplus y z) =
     Qcanon.Qcplus (Qcanon.Qcmult x y) (Qcanon.Qcmult x z)) /\
  (forall x y z : Qcanon.Qc,
     Qcanon.Qcmult (Qcanon.Qcplus x y) z =
     Qcanon.Qcplus (Qcanon.Qcmult x z) (Qcanon.Qcmult y z)) /\
  (forall x y : Qcanon.Qc, Qcanon.Qcmult x y = Qcanon.Qcmult y x) /\
  (forall x y z : Qcanon.Qc,
     Qcanon.Qcplus (Qcanon.Qcplus x y) z =
     Qcanon.Qcplus x (Qcanon.Qcplus y z)) /\
  gamma0 (doublej_after (K:=QcOne) 3 (Qcanon.Q2Qc (1 # 2)) (Qcanon.Q2Qc 1)) =
  series_sum (K:=QcOne) (Qcanon.Q2Qc (1 # 2)) (Qcanon.Q2Qc 1) 0 7.
Proof.
  assert (H1 : forall x y z : Qcanon.Qc,
     Qcanon.Qcmult (Qcanon.Qcmult x y) z =
     Qcanon.Qcmult x (Qcanon.Qcmult y z)).
  { intros x y z. symmetry. apply Qcanon.Qcmult_assoc. }
  assert (H2 : forall x y z : Qcanon.Qc,
     Qcanon.Qcmult x (Qcanon.Qcplus y z) =
     Qcanon.Qcplus (Qcanon.Qcmult x y) (Qcanon.Qcmult x z)).
  { intros x y z. apply Qcanon.Qcmult_plus_distr_r. }
  assert (H3 : forall x y z : Qcanon.Qc,
     Qcanon.Qcmult (Qcanon.Qcplus x y) z =
     Qcanon.Qcplus (Qcanon.Qcmult x z) (Qcanon.Qcmult y z)).
  { intros x y z. apply Qcanon.Qcmult_plus_distr_l. }
  assert (H4 : forall x y : Qcanon.Qc,
     Qcanon.Qcmult x y = Qcanon.Qcmult y x).
  { intros x y. apply Qcanon.Qcmult_comm. }
  assert (H5 : forall x y z : Qcanon.Qc,
     Qcanon.Qcplus (Qcanon.Qcplus x y) z =
     Qcanon.Qcplus x (Qcanon.Qcplus y z)).
  { intros x y z. symmetry. apply Qcanon.Qcplus_assoc. }
  repeat (split; [assumption|]).
  exact (proj1 (@doublej_partial_sums QcOne H1 H2 H3 H4 H5
                  (Qcanon.Q2Qc (1 # 2)) (Qcanon.Q2Qc 1)) 3%nat).
Defined.

Lemma doublej_cap_monotone_witness :
  doublej (K:=QDense) A_half one 7 =
    Return (snd (doubling_pair (K:=QDense) 6 A_half one)) /\
  (7 <= 50)%Z /\
  doublej (K:=QDense) A_half one 50 =
    Return (snd (doubling_pair (K:=QDense) 6 A_half one)).
Proof.
  assert (H : doublej (K:=QDense) A_half one 7 =
              Return (snd (doubling_pair (K:=QDense) 6 A_half one)))
    by (vm_compute; reflexivity).
  assert (Hle : (7 <= 50)%Z) by lia.
  split; [exact H|]. split; [exact Hle|].
  exact (@doublej_cap_monotone QDense A_half one 7%Z 50%Z _ H Hle).
Defined.

Lemma doublej_cap_at_most_1_witness :
  (1 <= 1)%Z /\
  doublej (K:=QDense) A_half one 1 =
    Raise (ValueError (doublej_msg 1)).
Proof.
  assert (Hle : (1 <= 1)%Z) by lia.
  split; [exact Hle|].
  exact (proj1 (@doublej_cap_at_most_1 QDense A_half one 1%Z Hle)).
Defined.

Lemma doublej_result_fresh_witness :
  (0 < length [A_half; one])%nat /\ (1 < length [A_half; one])%nat /\
  snd (doublej_obj (K:=QDense) [A_half; one] 0%nat 1%nat 7) =
    Return 13%nat /\
  (length [A_half; one] <= 13
   < length (fst (doublej_obj (K:=QDense) [A_half; one] 0%nat 1%nat 7)))%nat.
Proof.
  assert (Ha : (0 < length [A_half; one])%nat) by (cbn; lia).
  assert (Hb : (1 < length [A_half; one])%nat) by (cbn; lia).
  assert (Hr : snd (doublej_obj (K:=QDense) [A_half; one] 0%nat 1%nat 7) =
               Return 13%nat) by (vm_compute; reflexivity).
  split; [exact Ha|]. split; [exact Hb|]. split; [exact Hr|].
  exact (proj1 (@doublej_result_fresh QDense [A_half; one] 0%nat 1%nat
                  7%Z 13%nat Ha Hb Hr)).
Defined.

Lemma doubleo_exceptions_witness :
  result (doubleo (K:=QDense) 3 A_half one one [[0]] (1 # 1000)) =
    Raise LinAlgError /\
  (((LinAlgError = LinAlgError \/ LinAlgError = ValueError finite_msg) /\
    exists (l : list (qmatrix * qmatrix)) (m n : qmatrix),
      calls (doubleo (K:=QDense) 3 A_half one one [[0]] (1 # 1000)) =
      (l ++ [(m, n)])%list /\
      q_solve m n = None /\ LinAlgError = LinAlgError) \/
   (LinAlgError = UnboundLocalError "k1" /\
    q_gtb (q_lit 1) (1 # 1000) = false /\
    calls (doubleo (K:=QDense) 3 A_half one one [[0]] (1 # 1000)) =
    [([[0]], one)])).
Proof.
  assert (H : result (doubleo (K:=QDense) 3 A_half one one [[0]] (1 # 1000)) =
              Raise LinAlgError) by (vm_compute; reflexivity).
  split; [exact H|].
  exact (@doubleo_exceptions QDense 3%nat A_half one one [[0]] (1 # 1000)
           LinAlgError H).
Defined.

Lemma doubleo_solve_count_witness :
  result (doubleo (K:=QDense) 2 A_half one one one (1 # 1000)) =
    Return ([[657 # 2474]], [[657 # 580]]) /\
  exists (x : qmatrix) (j : nat) (st : doubleo_vars (K:=QDense)),
    q_solve one one = Some x /\
    (1 <= j <= 2)%nat /\
    result (doubleo_passes (K:=QDense) j A_half one one
              (q_eye (max_shape (K:=QDense) A_half))
              (doubleo_init (K:=QDense) A_half one one x)) = Return st /\
    k1 st = Some [[657 # 2474]] /\ g1 st = Some [[657 # 580]] /\
    length (calls (doubleo (K:=QDense) 2 A_half one one one (1 # 1000))) =
    (1 + 5 * j)%nat.
Proof.
  assert (H : result (doubleo (K:=QDense) 2 A_half one one one (1 # 1000)) =
              Return ([[657 # 2474]], [[657 # 580]]))
    by (vm_compute; reflexivity).
  split; [exact H|].
  exact (@doubleo_solve_count QDense 2%nat A_half one one one (1 # 1000)
           _ _ H).
Defined.

Lemma doubleo_stationary_never_returns_witness :
  q_solve one one = Some one /\
  q_gtb (q_lit 1) (-1) = true /\
  result (doubleo_pass (K:=QDense) [[0]] one one
            (q_eye (max_shape (K:=QDense) [[0]]))
            (doubleo_init (K:=QDense) [[0]] one one one)) =
    Return (@Build_doubleo_vars QDense [[0]] one one 0
              (Some [[0]]) (Some one)) /\
  forall fuel : nat,
    result (doubleo (K:=QDense) fuel [[0]] one one one (-1)) = Running.
Proof.
  assert (Hx : q_solve one one = Some one) by (vm_compute; reflexivity).
  assert (H1 : q_gtb (q_lit 1) (-1) = true) by (vm_compute; reflexivity).
  assert (Hp : result (doubleo_pass (K:=QDense) [[0]] one one
                 (q_eye (max_shape (K:=QDense) [[0]]))
                 (doubleo_init (K:=QDense) [[0]] one one one)) =
               Return (@Build_doubleo_vars QDense [[0]] one one 0
                         (Some [[0]]) (Some one)))
    by (vm_compute; reflexivity).
  split; [exact Hx|]. split; [exact H1|]. split; [exact Hp|].
  apply (@doubleo_stationary_never_returns QDense [[0]] one one one (-1) one
           (@Build_doubleo_vars QDense [[0]] one one 0
              (Some [[0]]) (Some one)) Hx H1 Hp).
  - vm_compute. reflexivity.
  - vm_compute. reflexivity.
Defined.

Lemma olrp_fallback_outcome_witness :
  leb (K:=QDense) (max_abs_eig [[0]]) (lit (1 # 100000)) = true /\
  (result (olrp (K:=QDense) 0 1 one one one [[0]] None q_tol 3) =
     Raise (ValueError (olrp_msg 3)) <->
   forall i, (i < Z.to_nat 3)%nat ->
     exists pass,
       olrp_pass_at (K:=QDense) i 1 one one one [[0]]
         (olrp_W (K:=QDense) one one None) (olrp_p0 (K:=QDense) one)
       = Some pass /\
       leb (K:=QDense) (olrp_metric (K:=QDense) pass) q_tol = true).
Proof.
  split; [reflexivity|].
  exact (proj2 (@olrp_fallback_outcome QDense 0%nat 1 one one one [[0]] None
                  q_tol 3%Z eq_refl)).
Defined.

Lemma olrp_fallback_bounded_witness :
  leb (K:=QDense) (max_abs_eig [[0]]) (lit (1 # 100000)) = true /\
  Nat.le
    (length (calls (olrp (K:=QDense) 0 1 one one one [[0]] None q_tol 3)))
    (2 * Z.to_nat 3)%nat.
Proof.
  split; [reflexivity|].
  exact (proj1 (@olrp_fallback_bounded QDense 0%nat 1 one one one [[0]] None
                  q_tol 3%Z eq_refl)).
Defined.

Lemma olrp_primary_no_limit_witness :
  @gtb QDense (max_abs_eig one) (lit (1 # 100000)) = true /\
  forall (tol' : Q) (max_iter' : Z),
    olrp (K:=QDense) 8 1 A_half one one one None tol' max_iter' =
    olrp (K:=QDense) 8 1 A_half one one one None q_tol 1000.
Proof.
  split; [reflexivity|].
  exact (proj1 (@olrp_primary_no_limit QDense 8%nat 1 A_half one one one None
                  q_tol 1000%Z eq_refl)).
Defined.

End ConcreteMore.
